(** * Pub-Sub log aggregator: the ingestion pipeline of [aggregator/app.py]

    A shallow embedding of the aggregator service: the in-memory
    [event_queue], the workers that drain it, the idempotent [insert_event]
    and the counters of the [stats] row.  The store (PostgreSQL reached
    through psycopg2) is external to the source; it is modelled by what the
    SQL text of the source asks of it: a table with a UNIQUE and NOT NULL
    [event_id], a single stats row, transactions with commit and rollback. *)

From stdpp Require Import gmap strings list sorting.
From Stdlib Require Import ZArith Lia Ascii.

Set Default Proof Using "Type".
Set Warnings "-register-all".

(** ** Data *)

(** Values of a decoded JSON body, as far as the service tells them apart:
    [None], a [str], a [dict].  Numbers, booleans and arrays are left out:
    how the driver renders them into a VARCHAR column is not visible in the
    source. *)
Inductive json :=
| JNull
| JStr (s : string)
| JObj (items : list (string * json)).

#[global] Instance json_inhabited : Inhabited json := populate JNull.

(** A point in time ([datetime], TIMESTAMPTZ). *)
Abbreviation datetime := Z (only parsing).

(** The dict appended to [event_queue] by [publish] (lines 234-240). *)
Record Event := mkEvent {
  topic : json;
  event_id : json;
  source : json;
  timestamp : datetime;
  payload : json
}.

(** A row of [processed_events] (lines 43-54).  The SERIAL [id] is drawn
    from a sequence and is never read or compared by the service; it is left
    out.  A string longer than the 255 characters of a column is rejected by
    the store: one of the failures of the environment below. *)
Record Row := mkRow {
  r_event_id : string;
  r_topic : string;
  r_timestamp : datetime;
  r_source : string;
  r_payload : json;
  received_at : datetime;
  created_at : datetime
}.

(** The single row of [stats] (lines 62-77).  The columns are INTEGER; the
    counters are taken in [Z], and an update that the store rejects as out
    of range is one of the failures of the environment below. *)
Record Stats := mkStats {
  received : Z;
  unique_processed : Z;
  duplicate_dropped : Z
}.

(** A database on which [init_database] has run: both tables exist and the
    stats row (id = 1) is there. *)
Record DB := mkDB {
  processed_events : list Row;
  stats : Stats
}.

(** What [init_database] leaves on an empty database. *)
Definition init_db : DB := mkDB [] (mkStats 0 0 0).

(** ** Exceptions and the environment *)

(** The exception classes the source tells apart. *)
Inductive exn :=
| IntegrityError      (* psycopg2.IntegrityError: a constraint was violated *)
| OperationalError    (* psycopg2.OperationalError: connectivity *)
| OtherException.     (* any other Exception *)

#[global] Instance exn_eq_dec : EqDecision exn.
Proof. solve_decision. Defined.

(** What the environment can do to one call of the driver: lose the
    connection, or fail in some other way that is not a constraint
    violation (a value out of range, a value too long, a timeout). *)
Inductive fault :=
| ConnectionLost
| StoreFailure.

Definition exn_of_fault (f : fault) : exn :=
  match f with
  | ConnectionLost => OperationalError
  | StoreFailure => OtherException
  end.

Inductive res (A : Type) :=
| Ok (a : A)
| Raise (e : exn).
Arguments Ok {A} a.
Arguments Raise {A} e.

(** The state a handler or a worker runs against.  [committed] is what the
    store holds durably, [tx] is what the open connection sees (its own
    uncommitted statements included), and [script] gives the outcome of the
    driver calls to come, in order: [Some f] makes the call raise, [None]
    lets it through, and past the end of the script every call goes
    through. *)
Record World := mkWorld {
  event_queue : list Event;
  committed : DB;
  tx : DB;
  script : list (option fault)
}.

Definition set_queue (q : list Event) (w : World) : World :=
  mkWorld q (committed w) (tx w) (script w).
Definition set_committed (d : DB) (w : World) : World :=
  mkWorld (event_queue w) d (tx w) (script w).
Definition set_tx (d : DB) (w : World) : World :=
  mkWorld (event_queue w) (committed w) d (script w).
Definition set_script (s : list (option fault)) (w : World) : World :=
  mkWorld (event_queue w) (committed w) (tx w) s.

(** ** A state and exception monad for the Python code *)

Definition M (A : Type) : Type := World -> res A * World.

Definition ret {A} (a : A) : M A := fun w => (Ok a, w).
Definition raise {A} (e : exn) : M A := fun w => (Raise e, w).
Definition bind {A B} (m : M A) (k : A -> M B) : M B :=
  fun w => match m w with
           | (Ok a, w') => k a w'
           | (Raise e, w') => (Raise e, w')
           end.
(** [try: body except ...: handler] *)
Definition try_except {A} (body : M A) (handler : exn -> M A) : M A :=
  fun w => match body w with
           | (Ok a, w') => (Ok a, w')
           | (Raise e, w') => handler e w'
           end.

Declare Scope py_scope.
Delimit Scope py_scope with py.
Notation "x ← m ; k" := (bind m (fun x => k))
  (at level 20, m at level 100, k at level 200, only parsing) : py_scope.
Notation "m ;; k" := (bind m (fun _ => k))
  (at level 100, k at level 200, only parsing, right associativity) : py_scope.
Local Open Scope py_scope.

(** ** The driver (psycopg2) *)

(** Every call that reaches the store can fail as the script says. *)
Definition driver_call : M unit :=
  fun w => match script w with
           | Some f :: rest => (Raise (exn_of_fault f), set_script rest w)
           | None :: rest => (Ok tt, set_script rest w)
           | [] => (Ok tt, w)
           end.

(** [psycopg2.connect(DATABASE_URL)]: a fresh connection sees the committed
    state. *)
Definition connect : M unit :=
  driver_call ;; fun w => (Ok tt, set_tx (committed w) w).

(** [conn.commit()] *)
Definition commit : M unit :=
  driver_call ;; fun w => (Ok tt, set_committed (tx w) w).

(** [conn.rollback()] *)
Definition rollback : M unit :=
  driver_call ;; fun w => (Ok tt, set_tx (committed w) w).

(** A query parameter for a VARCHAR column after adaptation by the driver. *)
Inductive param :=
| PNull
| PText (s : string).

(** [None] becomes NULL and a [str] a text literal; a [dict] cannot be
    adapted and the driver raises (ProgrammingError) before anything is
    sent. *)
Definition adapt (v : json) : res param :=
  match v with
  | JNull => Ok PNull
  | JStr s => Ok (PText s)
  | JObj _ => Raise OtherException
  end.

(** The statements the service executes. *)
Inductive statement :=
| InsertEvent (event_id topic : param) (timestamp : datetime) (source : param)
    (payload : json) (now : datetime)
| IncrUniqueProcessed
| IncrDuplicateDropped
| IncrReceived.

Definition has_event_id (eid : string) (d : DB) : bool :=
  bool_decide (eid ∈ r_event_id <$> processed_events d).

(** What a statement does to the data the connection sees.  The INSERT
    violates NOT NULL on a NULL [event_id], [topic] or [source] and UNIQUE
    on an [event_id] that is already there; [received_at] and [created_at]
    default to NOW().  Each UPDATE adds one to a counter of the stats
    row. *)
Definition run_statement (st : statement) (d : DB) : res DB :=
  match st with
  | InsertEvent (PText eid) (PText top) ts (PText src) pl now =>
      if has_event_id eid d then Raise IntegrityError
      else Ok (mkDB (processed_events d ++ [mkRow eid top ts src pl now now])
                 (stats d))
  | InsertEvent _ _ _ _ _ _ => Raise IntegrityError
  | IncrUniqueProcessed =>
      Ok (mkDB (processed_events d)
            (mkStats (received (stats d)) (unique_processed (stats d) + 1)
               (duplicate_dropped (stats d))))
  | IncrDuplicateDropped =>
      Ok (mkDB (processed_events d)
            (mkStats (received (stats d)) (unique_processed (stats d))
               (duplicate_dropped (stats d) + 1)))
  | IncrReceived =>
      Ok (mkDB (processed_events d)
            (mkStats (received (stats d) + 1) (unique_processed (stats d))
               (duplicate_dropped (stats d))))
  end.

(** [cur.execute(sql, params)] *)
Definition execute (st : statement) : M unit :=
  driver_call ;;
  fun w => match run_statement st (tx w) with
           | Ok d => (Ok tt, set_tx d w)
           | Raise e => (Raise e, w)
           end.

(** ** [get_db_connection] (lines 18-32) *)

Definition max_retries : nat := 5.

(** The body of [for attempt in range(max_retries)].  Only an
    OperationalError is retried; the last attempt turns it into a plain
    Exception.  Falling out of the loop would return [None], on which the
    caller's [conn.cursor()] raises; the last attempt always returns or
    raises, so that case is never reached. *)
Fixpoint get_db_connection_loop (attempts : list nat) : M unit :=
  match attempts with
  | [] => raise OtherException
  | attempt :: rest =>
      try_except connect
        (fun e =>
           match e with
           | OperationalError =>
               if bool_decide (attempt < max_retries - 1)%nat
               then get_db_connection_loop rest
               else raise OtherException
           | _ => raise e
           end)
  end.

Definition get_db_connection : M unit :=
  get_db_connection_loop (seq 0 max_retries).

(** ** [insert_event] (lines 86-116) *)

(** The parameters of the INSERT; adaptation fails inside [cur.execute]. *)
Definition insert_statement (now : datetime) (ev : Event) : res statement :=
  match adapt (event_id ev), adapt (topic ev), adapt (source ev) with
  | Ok eid, Ok top, Ok src =>
      Ok (InsertEvent eid top (timestamp ev) src (payload ev) now)
  | _, _, _ => Raise OtherException
  end.

Definition execute_insert (now : datetime) (ev : Event) : M unit :=
  match insert_statement now ev with
  | Ok st => execute st
  | Raise e => raise e
  end.

(** The result is the pair [(success, is_dup)].  The connection is taken
    before the [try]. *)
Definition insert_event (now : datetime) (ev : Event) : M (bool * bool) :=
  get_db_connection ;;
  try_except
    (execute_insert now ev ;;
     execute IncrUniqueProcessed ;;
     commit ;;
     ret (true, false))
    (fun e =>
       match e with
       | IntegrityError =>
           rollback ;;
           execute IncrDuplicateDropped ;;
           commit ;;
           ret (true, true)
       | _ =>
           rollback ;;
           ret (false, false)
       end).


(** ** [increment_received] (lines 119-126) *)

Definition increment_received : M unit :=
  get_db_connection ;;
  execute IncrReceived ;;
  commit.

(** ** The queue (lines 15-16)

    Both operations run under [queue_lock], so each is one atomic step. *)

(** [event_queue.append(ev)] (lines 233-240, 264-271) *)
Definition enqueue (ev : Event) : M unit :=
  fun w => (Ok tt, set_queue (event_queue w ++ [ev]) w).

(** [if event_queue: event = event_queue.pop(0)] (lines 197-200) *)
Definition dequeue : M (option Event) :=
  fun w => match event_queue w with
           | [] => (Ok None, w)
           | ev :: q => (Ok (Some ev), set_queue q w)
           end.

(** ** [worker] (lines 193-212) *)

(** What one turn of the loop prints or does. *)
Inductive log :=
| LogDup (topic event_id : json)
| LogOk (topic event_id : json)
| Slept.

(** One turn of [while True].  The dequeued dict is never empty, so
    [if event:] holds whenever something was popped.  Nothing here catches
    an exception of [insert_event]. *)
Definition worker_iteration (now : datetime) : M log :=
  event ← dequeue;
  match event with
  | Some ev =>
      r ← insert_event now ev;
      if r.2 then ret (LogDup (topic ev) (event_id ev))
      else ret (LogOk (topic ev) (event_id ev))
  | None => ret Slept
  end.

(** The thread: one turn per reading of the clock, for as long as the
    clock is read; an exception ends the thread. *)
Fixpoint worker (clock : list datetime) : M (list log) :=
  match clock with
  | [] => ret []
  | now :: later =>
      l ← worker_iteration now;
      ls ← worker later;
      ret (l :: ls)
  end.

(** ** The gateway: [publish] and [publish_batch] (lines 220-276) *)

Inductive error :=
| MissingField (field : string)
| InvalidTimestampFormat
| InvalidTimestampFor (event_id : json)
| MissingEventsField.

(** The JSON answers; an exception that leaves a handler is answered by
    the framework with status 500 and shows here as [Raise]. *)
Inductive response :=
| Accepted (event_id : json)              (* 202 *)
| AcceptedBatch (count : nat)             (* 202 *)
| BadRequest (e : error).                 (* 400 *)

Definition required : list string :=
  ["topic"; "event_id"; "timestamp"; "source"; "payload"]%string.

(** [for field in required: if field not in data: return ...] *)
Fixpoint first_missing (fields : list string) (data : gmap string json)
  : option string :=
  match fields with
  | [] => None
  | field :: rest =>
      match data !! field with
      | None => Some field
      | Some _ => first_missing rest data
      end
  end.

(** [s.replace('Z', '+00:00')] *)
Fixpoint replace_Z (s : string) : string :=
  match s with
  | EmptyString => EmptyString
  | String a s' =>
      if Ascii.eqb a "Z"%char then ("+00:00" +:+ replace_Z s')%string
      else String a (replace_Z s')
  end.

Section Gateway.

(** [datetime.fromisoformat] belongs to the Python library; [None] stands
    for the ValueError it raises. *)
Variable fromisoformat : string -> option datetime.

(** The [try] of lines 228-231: anything raised there (a value that is not
    a [str] has no [replace]) is an invalid timestamp. *)
Definition parse_timestamp (v : json) : option datetime :=
  match v with
  | JStr s => fromisoformat (replace_Z s)
  | _ => None
  end.

(** The dict built at lines 234-240; the keys are known to be there. *)
Definition event_of (data : gmap string json) (ts : datetime) : Event :=
  mkEvent (data !!! "topic"%string) (data !!! "event_id"%string)
    (data !!! "source"%string) ts (data !!! "payload"%string).

(** The checks of lines 223-231: the error, or the parsed timestamp. *)
Definition validate (data : gmap string json) : error + datetime :=
  match first_missing required data with
  | Some field => inl (MissingField field)
  | None =>
      match parse_timestamp (data !!! "timestamp"%string) with
      | None => inl InvalidTimestampFormat
      | Some ts => inr ts
      end
  end.

Definition publish (data : gmap string json) : M response :=
  match validate data with
  | inl e => ret (BadRequest e)
  | inr ts =>
      enqueue (event_of data ts) ;;
      increment_received ;;
      ret (Accepted (data !!! "event_id"%string))
  end.

(** The loop of lines 253-274; the message for a bad timestamp names the
    event. *)
Fixpoint publish_batch_loop (events : list (gmap string json)) (count : nat)
  : M response :=
  match events with
  | [] => ret (AcceptedBatch count)
  | event :: rest =>
      match validate event with
      | inl (MissingField field) => ret (BadRequest (MissingField field))
      | inl _ =>
          ret (BadRequest (InvalidTimestampFor (event !!! "event_id"%string)))
      | inr ts =>
          enqueue (event_of event ts) ;;
          increment_received ;;
          publish_batch_loop rest (count + 1)
      end
  end.

(** [events] is [data.get('events')]: [None] when the key is missing. *)
Definition publish_batch (events : option (list (gmap string json)))
  : M response :=
  match events with
  | None => ret (BadRequest MissingEventsField)
  | Some evs => publish_batch_loop evs 0
  end.

(** A body is malformed when a required key is missing or the timestamp
    cannot be parsed. *)
Definition malformed (data : gmap string json) : Prop :=
  (exists field, field ∈ required /\ data !! field = None) \/
  (exists v, data !! "timestamp"%string = Some v /\ parse_timestamp v = None).

(** The world after one [publish] request per body, in order. *)
Definition submit_each (bodies : list (gmap string json)) (w : World)
  : World :=
  foldl (fun w data => (publish data w).2) w bodies.

(** The bodies of a batch up to the first one that does not validate. *)
Fixpoint valid_prefix (events : list (gmap string json))
  : list (gmap string json) :=
  match events with
  | [] => []
  | event :: rest =>
      match validate event with
      | inl _ => []
      | inr _ => event :: valid_prefix rest
      end
  end.

End Gateway.

(** ** The listing: [get_events_from_db] and [get_events] (lines 129-161,
    279-285) *)

(** A dict of the result list. *)
Record EventView := mkEventView {
  v_event_id : string;
  v_topic : string;
  v_timestamp : datetime;
  v_source : string;
  v_payload : json;
  v_received_at : datetime
}.

Definition view_of (r : Row) : EventView :=
  mkEventView (r_event_id r) (r_topic r) (r_timestamp r) (r_source r)
    (r_payload r) (received_at r).

(** [if topic:] holds for a string that is not empty. *)
Definition truthy (topic : option string) : bool :=
  match topic with
  | Some t => negb (bool_decide (t = ""%string))
  | None => false
  end.

(** [ORDER BY received_at DESC]: the later arrival first. *)
Definition arrived_no_earlier (r1 r2 : Row) : Prop :=
  (received_at r2 <= received_at r1)%Z.

#[global] Instance arrived_no_earlier_dec : RelDecision arrived_no_earlier.
Proof. intros r1 r2. unfold arrived_no_earlier. apply _. Defined.

(** The rows the SELECT is about: all of them, or those of one topic. *)
Definition where_topic (topic : option string) (rows : list Row) : list Row :=
  match topic with
  | Some t =>
      if truthy topic then filter (fun r => r_topic r = t) rows else rows
  | None => rows
  end.

(** LIMIT and OFFSET are of type bigint. *)
Definition bigint_max : Z := 9223372036854775807.

(** The two SELECT statements.  SQL leaves the order of rows of equal
    [received_at] open; the model takes the one of a merge sort, and what
    is stated of a listing below either does not depend on that order or
    assumes that no two records arrived at the same time.  The store
    rejects a LIMIT or OFFSET that is negative or is not a bigint. *)
Definition select_events (topic : option string) (limit offset : Z) (d : DB)
  : res (list Row) :=
  if bool_decide (limit < 0)%Z || bool_decide (offset < 0)%Z ||
     bool_decide (bigint_max < limit)%Z || bool_decide (bigint_max < offset)%Z
  then Raise OtherException
  else Ok (take (Z.to_nat limit)
             (drop (Z.to_nat offset)
                (merge_sort arrived_no_earlier
                   (where_topic topic (processed_events d))))).

Definition get_events_from_db (topic : option string) (limit offset : Z)
  : M (list EventView) :=
  get_db_connection ;;
  driver_call ;;
  fun w => match select_events topic limit offset (tx w) with
           | Ok rows => (Ok (view_of <$> rows), w)
           | Raise e => (Raise e, w)
           end.

(** [limit] and [offset] are the query arguments after [int(...)]; [None]
    is an argument that was not given. *)
Definition get_events (topic : option string) (limit offset : option Z)
  : M (list EventView) :=
  get_events_from_db topic (default 100%Z limit) (default 0%Z offset).

(** ** The threads together

    The gateway threads and the four workers of lines 308-312 share the
    queue and the store.  A step of the system is one piece of code that
    runs under [queue_lock] or one call that talks to the store; the steps
    of different threads interleave freely.  Between its append and its
    [increment_received] a gateway thread holds no lock, and between its
    [pop] and the end of [insert_event] a worker holds its event. *)

Definition num_workers : nat := 4.

Record Sys := mkSys {
  sys_queue : list Event;
  sys_db : DB;
  (** worker -> the event it popped and is persisting *)
  in_flight : gmap nat Event;
  (** workers whose thread ended with an exception *)
  crashed : gset nat;
  (** gateway threads that appended and have not yet run
      [increment_received] *)
  pending : nat;
  (** history: who popped what, oldest first *)
  claims : list (nat * Event)
}.

Definition init_sys : Sys := mkSys [] init_db ∅ ∅ 0 [].

Definition world_of (s : Sys) (faults : list (option fault)) : World :=
  mkWorld (sys_queue s) (sys_db s) (sys_db s) faults.

Inductive action :=
| Append (ev : Event)                            (* lines 233-240 *)
| CountReceived (faults : list (option fault))   (* line 242 *)
| Claim (k : nat)                                (* lines 197-200 *)
| Persist (k : nat) (now : datetime) (faults : list (option fault)).
                                                 (* lines 202-210 *)

Definition is_raise {A} (r : res A) : bool :=
  match r with Raise _ => true | Ok _ => false end.

(** [None]: the action cannot happen in this state. *)
Definition step (s : Sys) (a : action) : option Sys :=
  match a with
  | Append ev =>
      let w' := (enqueue ev (world_of s [])).2 in
      Some (mkSys (event_queue w') (sys_db s) (in_flight s) (crashed s)
              (S (pending s)) (claims s))
  | CountReceived faults =>
      match pending s with
      | O => None
      | S n =>
          let w' := (increment_received (world_of s faults)).2 in
          Some (mkSys (sys_queue s) (committed w') (in_flight s) (crashed s)
                  n (claims s))
      end
  | Claim k =>
      if decide ((k < num_workers)%nat /\ (k ∉ crashed s) /\
                 in_flight s !! k = None)
      then
        match dequeue (world_of s []) with
        | (Ok (Some ev), w') =>
            Some (mkSys (event_queue w') (sys_db s) (<[k:=ev]> (in_flight s))
                    (crashed s) (pending s) (claims s ++ [(k, ev)]))
        | _ => Some s
        end
      else None
  | Persist k now faults =>
      match in_flight s !! k with
      | None => None
      | Some ev =>
          let rw := insert_event now ev (world_of s faults) in
          Some (mkSys (sys_queue s) (committed rw.2) (delete k (in_flight s))
                  (if is_raise rw.1 then {[k]} ∪ crashed s else crashed s)
                  (pending s) (claims s))
      end
  end.

Fixpoint exec (s : Sys) (trace : list action) : option Sys :=
  match trace with
  | [] => Some s
  | a :: rest =>
      match step s a with
      | Some s' => exec s' rest
      | None => None
      end
  end.

(** The events appended along a trace, in order. *)
Fixpoint enqueued (trace : list action) : list Event :=
  match trace with
  | [] => []
  | Append ev :: rest => ev :: enqueued rest
  | _ :: rest => enqueued rest
  end.

(** Every [increment_received] of the trace goes through. *)
Fixpoint counts_succeed (trace : list action) : Prop :=
  match trace with
  | [] => True
  | CountReceived faults :: rest => faults = [] /\ counts_succeed rest
  | _ :: rest => counts_succeed rest
  end.

(** ** [get_stats_from_db] (lines 164-190) *)

(** The dict returned to [/stats]. *)
Record StatsView := mkStatsView {
  s_received : Z;
  s_unique_processed : Z;
  s_duplicate_dropped : Z;
  s_topics : gmap string nat
}.

(** [SELECT topic, COUNT( * ) ... GROUP BY topic]: one group per topic that
    has a record. *)
Definition count_by_topic (rows : list Row) : gmap string nat :=
  foldr (fun r groups =>
           <[r_topic r := S (default 0%nat (groups !! r_topic r))]> groups)
    ∅ rows.

(** [ORDER BY count DESC]: the larger group first. *)
Definition no_less_frequent (a b : string * nat) : Prop := (b.2 <= a.2)%nat.

#[global] Instance no_less_frequent_dec : RelDecision no_less_frequent.
Proof. intros a b. unfold no_less_frequent. apply _. Defined.

(** The rows of the second SELECT; groups of equal size come in the order
    of a merge sort. *)
Definition select_topic_counts (d : DB) : list (string * nat) :=
  merge_sort no_less_frequent (map_to_list (count_by_topic (processed_events d))).

(** [for row in topic_stats: topics[row['topic']] = row['count']] *)
Definition topics_dict (topic_stats : list (string * nat)) : gmap string nat :=
  foldl (fun topics row => <[row.1 := row.2]> topics) ∅ topic_stats.

Definition get_stats_from_db : M StatsView :=
  get_db_connection ;;
  driver_call ;;
  stats_row ← (fun w => (Ok (stats (tx w)), w));
  driver_call ;;
  topic_stats ← (fun w => (Ok (select_topic_counts (tx w)), w));
  ret (mkStatsView (received stats_row) (unique_processed stats_row)
         (duplicate_dropped stats_row) (topics_dict topic_stats)).

(** The two SELECTs are two statements of one connection, and each sees
    what is committed when it starts: a worker that commits between them is
    seen by the second alone.  [stats_answer d1 d2] is the dict returned
    when the stats row is read from [d1] (line 169) and the topics are
    counted in [d2] (lines 172-175). *)
Definition stats_answer (d1 d2 : DB) : StatsView :=
  let stats_row := stats d1 in
  let topic_stats := select_topic_counts d2 in
  mkStatsView (received stats_row) (unique_processed stats_row)
    (duplicate_dropped stats_row) (topics_dict topic_stats).

(** ** [queue_status] (lines 294-298): the length of the queue, read under
    the lock, and the number of workers as written in the handler. *)
Definition queue_status : M (nat * nat) :=
  fun w => (Ok (length (event_queue w), 4%nat), w).

(** ** [init_database] (lines 35-83)

    Before [init_database] has run the tables may be missing, so the store
    is described by its catalog: each table is absent or has rows, and the
    stats table holds at most the row of id 1 (PRIMARY KEY and CHECK). *)
Record Catalog := mkCatalog {
  tbl_processed_events : option (list Row);
  tbl_indexes : gset string;
  tbl_stats : option (option Stats)
}.

(** A database that was never initialised. *)
Definition empty_catalog : Catalog := mkCatalog None ∅ None.

(** The catalog of an initialised database. *)
Definition catalog_of (d : DB) : Catalog :=
  mkCatalog (Some (processed_events d))
    {["idx_topic"; "idx_timestamp"; "idx_received_at"]}%string
    (Some (Some (stats d))).

(** The statements of [init_database]; all of them leave alone what is
    already there. *)
Inductive ddl :=
| CreateProcessedEvents                  (* CREATE TABLE IF NOT EXISTS *)
| CreateIndex (name : string)            (* CREATE INDEX IF NOT EXISTS *)
| CreateStats                            (* CREATE TABLE IF NOT EXISTS *)
| InsertStatsRow.                        (* INSERT ... ON CONFLICT DO NOTHING *)

(** An index or a row needs its table: without it the store rejects the
    statement (the table is undefined). *)
Definition run_ddl (st : ddl) (c : Catalog) : res Catalog :=
  match st with
  | CreateProcessedEvents =>
      Ok (mkCatalog (Some (default [] (tbl_processed_events c)))
            (tbl_indexes c) (tbl_stats c))
  | CreateIndex name =>
      match tbl_processed_events c with
      | Some _ =>
          Ok (mkCatalog (tbl_processed_events c) ({[name]} ∪ tbl_indexes c)
                (tbl_stats c))
      | None => Raise OtherException
      end
  | CreateStats =>
      Ok (mkCatalog (tbl_processed_events c) (tbl_indexes c)
            (Some (default None (tbl_stats c))))
  | InsertStatsRow =>
      match tbl_stats c with
      | Some row =>
          Ok (mkCatalog (tbl_processed_events c) (tbl_indexes c)
                (Some (Some (default (mkStats 0 0 0) row))))
      | None => Raise OtherException
      end
  end.

(** The state [init_database] runs against: the committed catalog, the
    catalog its connection sees, and the script of the driver calls. *)
Record Boot := mkBoot {
  b_committed : Catalog;
  b_tx : Catalog;
  b_script : list (option fault)
}.

(** [get_db_connection] looks at nothing but the script: it is run on a
    world that carries the script of the boot state. *)
Definition boot_connect (b : Boot) : res unit * Boot :=
  let rw := get_db_connection (mkWorld [] init_db init_db (b_script b)) in
  match rw.1 with
  | Ok _ => (Ok tt, mkBoot (b_committed b) (b_committed b) (script rw.2))
  | Raise e => (Raise e, mkBoot (b_committed b) (b_tx b) (script rw.2))
  end.

(** [cur.execute] of one statement of the schema. *)
Definition boot_execute (st : ddl) (b : Boot) : res unit * Boot :=
  match b_script b with
  | Some f :: rest =>
      (Raise (exn_of_fault f), mkBoot (b_committed b) (b_tx b) rest)
  | rest0 =>
      match run_ddl st (b_tx b) with
      | Ok c => (Ok tt, mkBoot (b_committed b) c (tail rest0))
      | Raise e => (Raise e, mkBoot (b_committed b) (b_tx b) (tail rest0))
      end
  end.

(** [conn.commit()]: the statements of the schema take effect together. *)
Definition boot_commit (b : Boot) : res unit * Boot :=
  match b_script b with
  | Some f :: rest =>
      (Raise (exn_of_fault f), mkBoot (b_committed b) (b_tx b) rest)
  | rest0 => (Ok tt, mkBoot (b_tx b) (b_tx b) (tail rest0))
  end.

(** Run the calls in order; the first exception ends the run. *)
Fixpoint boot_sequence (calls : list (Boot -> res unit * Boot)) (b : Boot)
  : res unit * Boot :=
  match calls with
  | [] => (Ok tt, b)
  | call :: rest =>
      match call b with
      | (Ok _, b') => boot_sequence rest b'
      | (Raise e, b') => (Raise e, b')
      end
  end.

Definition init_database : Boot -> res unit * Boot :=
  boot_sequence
    [boot_connect;
     boot_execute CreateProcessedEvents;
     boot_execute (CreateIndex "idx_topic");
     boot_execute (CreateIndex "idx_timestamp");
     boot_execute (CreateIndex "idx_received_at");
     boot_execute CreateStats;
     boot_execute InsertStatsRow;
     boot_commit].

(** The catalog with everything [init_database] creates added to it and
    everything that was there kept. *)
Definition with_schema (c : Catalog) : Catalog :=
  mkCatalog (Some (default [] (tbl_processed_events c)))
    ({["idx_received_at"%string]} ∪
       ({["idx_timestamp"%string]} ∪ ({["idx_topic"%string]} ∪ tbl_indexes c)))
    (Some (Some (default (mkStats 0 0 0) (default None (tbl_stats c))))).

(** ** The publishing loop of [publisher/publisher.py] (lines 36-90)

    The load generator, as far as its bookkeeping goes.  What it draws at
    random, what the event it makes up looks like and what the network
    answers are given from outside, one [Draw] per turn of the loop. *)

Section Publisher.

(** The dict sent to [/publish]. *)
Variable E : Type.

Record Draw := mkDraw {
  (** [random.random() < DUPLICATE_RATE] *)
  resend : bool;
  (** the place in the pool that [random.choice] takes *)
  pick : nat;
  (** the event made up in the [else] branch *)
  fresh : E;
  (** the POST was answered 202; [false] for any other answer and for an
      exception *)
  accepted : bool
}.

Record Publisher := mkPublisher {
  event_pool : list E;
  sent_count : nat;
  duplicate_count : nat;
  failed_count : nat
}.

Definition pool_limit : nat := 1000.

(** One turn of [for i in range(TOTAL_EVENTS)]: the event to send and the
    state after it was sent.  The pool is asked first, so nothing is drawn
    while it is empty; [random.choice] takes an event of the pool. *)
Definition publisher_turn (st : Publisher) (d : Draw) : E * Publisher :=
  let again :=
    match event_pool st with [] => false | _ :: _ => resend d end in
  let event :=
    if again
    then default (fresh d)
           (event_pool st !! (pick d mod length (event_pool st))%nat)
    else fresh d in
  let pool :=
    if again then event_pool st
    else
      let pool := event_pool st ++ [fresh d] in
      if bool_decide (pool_limit < length pool)%nat then tail pool else pool in
  let dup :=
    if again then S (duplicate_count st) else duplicate_count st in
  (event,
   if accepted d
   then mkPublisher pool (S (sent_count st)) dup (failed_count st)
   else mkPublisher pool (sent_count st) dup (S (failed_count st))).

(** The loop: the events sent, in order, and the state at the end. *)
Fixpoint publisher_loop (st : Publisher) (draws : list Draw)
  : list E * Publisher :=
  match draws with
  | [] => ([], st)
  | d :: rest =>
      let '(event, st') := publisher_turn st d in
      let '(events, st'') := publisher_loop st' rest in
      (event :: events, st'')
  end.

(** Lines 36-39. *)
Definition publisher_start : Publisher := mkPublisher [] 0 0 0.

End Publisher.

Arguments mkDraw {E} resend pick fresh accepted.
Arguments resend {E} d.
Arguments pick {E} d.
Arguments fresh {E} d.
Arguments accepted {E} d.
Arguments mkPublisher {E} event_pool sent_count duplicate_count failed_count.
Arguments event_pool {E} p.
Arguments sent_count {E} p.
Arguments duplicate_count {E} p.
Arguments failed_count {E} p.
Arguments publisher_turn {E} st d.
Arguments publisher_loop {E} st draws.
Arguments publisher_start {E}.

(** ** What the log of a worker says about its events *)


(** The characters of a string. *)
Fixpoint chars (s : string) : list ascii :=
  match s with
  | EmptyString => []
  | String a s' => a :: chars s'
  end.

(** ** The column types (lines 43-54 and 62-70)

    [event_id], [topic] and [source] are VARCHAR(255): a string of more
    than 255 characters is rejected by the INSERT with a data error, which
    is not an IntegrityError, unless every character past the 255th is a
    space (such spaces the store cuts off; no statement below has a string
    of this kind).  The counters are INTEGER: an UPDATE that would take one
    past 2147483647 is rejected in the same way. *)
Definition varchar_limit : nat := 255.

Definition integer_max : Z := 2147483647.

Definition too_long (s : string) : bool :=
  existsb (fun a => negb (Ascii.eqb a " ")) (drop varchar_limit (chars s)).

Definition param_too_long (p : param) : bool :=
  match p with
  | PNull => false
  | PText s => too_long s
  end.

(** What the column types say to a statement on the data [d]: the failure
    of the call that executes it, if there is one. *)
Definition column_fault (st : statement) (d : DB) : option fault :=
  match st with
  | InsertEvent eid top _ src _ _ =>
      if param_too_long eid || param_too_long top || param_too_long src
      then Some StoreFailure else None
  | IncrUniqueProcessed =>
      if bool_decide (integer_max <= unique_processed (stats d))%Z
      then Some StoreFailure else None
  | IncrDuplicateDropped =>
      if bool_decide (integer_max <= duplicate_dropped (stats d))%Z
      then Some StoreFailure else None
  | IncrReceived =>
      if bool_decide (integer_max <= received (stats d))%Z
      then Some StoreFailure else None
  end.

(** The script of one call of [insert_event] on the committed data [d]
    against a store that is up: every call of the driver goes through
    except a statement that the column types reject.  The calls are, in
    order: connect; then the INSERT and, as it goes, the UPDATE with the
    commit (or the rollback), or the rollback with the UPDATE and the
    commit of the duplicate, or the rollback alone. *)
Definition store_answers (now : datetime) (ev : Event) (d : DB)
  : list (option fault) :=
  None ::
  match insert_statement now ev with
  | Raise _ => [None]
  | Ok st =>
      match column_fault st d with
      | Some f => [Some f; None]
      | None =>
          match run_statement st d with
          | Ok d1 => [None; column_fault IncrUniqueProcessed d1; None]
          | Raise _ =>
              match column_fault IncrDuplicateDropped d with
              | Some f => [None; None; Some f]
              | None => [None; None; None; None]
              end
          end
      end
  end.


(** ** States and inputs named in the statements *)

(** The database after a new record and its count. *)
Definition stored (now : datetime) (eid top src : string) (ts : datetime)
  (pl : json) (d : DB) : DB :=
  mkDB (processed_events d ++ [mkRow eid top ts src pl now now])
    (mkStats (received (stats d)) (unique_processed (stats d) + 1)
       (duplicate_dropped (stats d))).

(** The database after [n] duplicates were counted. *)
Definition dropped (n : nat) (d : DB) : DB :=
  mkDB (processed_events d)
    (mkStats (received (stats d)) (unique_processed (stats d))
       (duplicate_dropped (stats d) + Z.of_nat n)).

(** The database after [n] accepted events were counted. *)
Definition counted_in (n : nat) (d : DB) : DB :=
  mkDB (processed_events d)
    (mkStats (received (stats d) + Z.of_nat n) (unique_processed (stats d))
       (duplicate_dropped (stats d))).



(** A stand-in for [datetime.fromisoformat] that knows one timestamp; it
    agrees with the library on every string the examples hand to it. *)
Definition fromisoformat_sample (s : string) : option datetime :=
  if bool_decide (s = "2025-01-01T00:00:00+00:00"%string)
  then Some 1735689600%Z else None.

(** The body of Scenario A, for a given [event_id]. *)
Definition sample_body (eid : string) : gmap string json :=
  list_to_map
    [("topic", JStr "t"); ("event_id", JStr eid);
     ("timestamp", JStr "2025-01-01T00:00:00Z"); ("source", JStr "s");
     ("payload", JObj [])]%string.

Definition sample_event (eid : string) : Event :=
  mkEvent (JStr "t") (JStr eid) (JStr "s") 1735689600 (JObj []).

(** The store stays consistent with itself in every reachable state:
    [unique_processed] is the number of stored records, and no two records
    share an [event_id]. *)
Definition db_consistent (d : DB) : Prop :=
  unique_processed (stats d) = Z.of_nat (length (processed_events d)) /\
  NoDup (r_event_id <$> processed_events d).

(** What the workers have settled or still hold, against what the gateway
    has counted or is about to count. *)
Definition accounted (s : Sys) : Prop :=
  (unique_processed (stats (sys_db s)) + duplicate_dropped (stats (sys_db s)) +
   Z.of_nat (length (sys_queue s)) + Z.of_nat (size (in_flight s))
   <= received (stats (sys_db s)) + Z.of_nat (pending s))%Z.

(** The store only grows: the records of [d] are the first records of
    [d'], unchanged, and no counter of [d'] is below that of [d]. *)
Definition db_extends (d d' : DB) : Prop :=
  processed_events d `prefix_of` processed_events d' /\
  (received (stats d) <= received (stats d'))%Z /\
  (unique_processed (stats d) <= unique_processed (stats d'))%Z /\
  (duplicate_dropped (stats d) <= duplicate_dropped (stats d'))%Z.

(** The counts of a [topics] dict added up. *)
Definition total_count (topics : gmap string nat) : nat :=
  map_fold (fun _ n acc => (n + acc)%nat) 0%nat topics.

(** ** Views of the driver calls

    The shapes the result of a call can take on any world.  Destructing a
    view replaces the call by one of its results. *)

Inductive driver_view (w : World) : res unit * World -> Prop :=
| driver_ok s' : driver_view w (Ok tt, set_script s' w)
| driver_fault f s' : driver_view w (Raise (exn_of_fault f), set_script s' w).

Inductive connect_view (w : World) : res unit * World -> Prop :=
| connect_ok s' :
    connect_view w (Ok tt, set_script s' (set_tx (committed w) w))
| connect_raise e s' :
    e <> IntegrityError -> connect_view w (Raise e, set_script s' w).

Inductive execute_view (st : statement) (w : World) :
  res unit * World -> Prop :=
| execute_ok d s' :
    run_statement st (tx w) = Ok d ->
    execute_view st w (Ok tt, set_script s' (set_tx d w))
| execute_fault f s' :
    execute_view st w (Raise (exn_of_fault f), set_script s' w)
| execute_rejected e s' :
    run_statement st (tx w) = Raise e ->
    execute_view st w (Raise e, set_script s' w).

Inductive commit_view (w : World) : res unit * World -> Prop :=
| commit_ok s' :
    commit_view w (Ok tt, set_script s' (set_committed (tx w) w))
| commit_fault f s' :
    commit_view w (Raise (exn_of_fault f), set_script s' w).

Inductive rollback_view (w : World) : res unit * World -> Prop :=
| rollback_ok s' :
    rollback_view w (Ok tt, set_script s' (set_tx (committed w) w))
| rollback_fault f s' :
    rollback_view w (Raise (exn_of_fault f), set_script s' w).

(** What one call of [insert_event] can return, with the committed state it
    leaves behind. *)
Inductive persisted (now : datetime) (ev : Event) (d : DB) :
  res (bool * bool) -> DB -> Prop :=
| persisted_created st d1 d2 :
    insert_statement now ev = Ok st ->
    run_statement st d = Ok d1 ->
    run_statement IncrUniqueProcessed d1 = Ok d2 ->
    persisted now ev d (Ok (true, false)) d2
| persisted_duplicate st d1 :
    insert_statement now ev = Ok st ->
    run_statement st d = Raise IntegrityError ->
    run_statement IncrDuplicateDropped d = Ok d1 ->
    persisted now ev d (Ok (true, true)) d1
| persisted_failed :
    persisted now ev d (Ok (false, false)) d
| persisted_raised e :
    persisted now ev d (Raise e) d.

(** What [increment_received] can do to the committed state. *)
Inductive counted (d : DB) : res unit -> DB -> Prop :=
| counted_ok d1 :
    run_statement IncrReceived d = Ok d1 -> counted d (Ok tt) d1
| counted_raised e : counted d (Raise e) d.

(** * Proofs *)

Arguments has_event_id : simpl never.

(** ** The driver *)

Lemma driver_callP w : driver_view w (driver_call w).
Proof.
  unfold driver_call. destruct w as [q c t [|[f|] s]]; cbn.
  - exact (driver_ok (mkWorld q c t []) []).
  - exact (driver_fault (mkWorld q c t (Some f :: s)) f s).
  - exact (driver_ok (mkWorld q c t (None :: s)) s).
Qed.

Lemma connectP w : connect_view w (connect w).
Proof.
  unfold connect, bind. destruct (driver_callP w) as [s'|f s'].
  - apply (connect_ok w s').
  - apply connect_raise. by destruct f.
Qed.

Lemma get_db_connection_loopP attempts w :
  connect_view w (get_db_connection_loop attempts w).
Proof.
  revert w. induction attempts as [|attempt rest IH]; intros w; cbn.
  - destruct w as [q c t s].
    by apply (connect_raise (mkWorld q c t s) OtherException s).
  - unfold try_except. destruct (connectP w) as [s'|e s' He].
    + apply connect_ok.
    + destruct e; [done| |].
      * case_bool_decide.
        -- destruct (IH (set_script s' w)) as [s''|e s'' He'].
           ++ apply (connect_ok w s'').
           ++ by apply (connect_raise w e s'').
        -- by apply connect_raise.
      * by apply connect_raise.
Qed.

Lemma get_db_connectionP w : connect_view w (get_db_connection w).
Proof. apply get_db_connection_loopP. Qed.

Lemma executeP st w : execute_view st w (execute st w).
Proof.
  unfold execute, bind. destruct (driver_callP w) as [s'|f s']; cbn.
  - destruct (run_statement st (tx w)) as [d|e] eqn:Hst.
    + by apply (execute_ok st w d s').
    + by apply (execute_rejected st w e s').
  - apply execute_fault.
Qed.

Lemma commitP w : commit_view w (commit w).
Proof.
  unfold commit, bind. destruct (driver_callP w) as [s'|f s']; cbn.
  - apply (commit_ok w s').
  - apply commit_fault.
Qed.

Lemma rollbackP w : rollback_view w (rollback w).
Proof.
  unfold rollback, bind. destruct (driver_callP w) as [s'|f s']; cbn.
  - apply (rollback_ok w s').
  - apply rollback_fault.
Qed.

Ltac py_proj :=
  unfold set_queue, set_committed, set_tx, set_script in *;
  cbn [fst snd event_queue committed tx script] in *.

(** The only statement that can be rejected is the INSERT, and only for a
    violated constraint. *)
Lemma run_statement_raise st d e :
  run_statement st d = Raise e ->
  e = IntegrityError /\ exists eid top ts src pl now,
    st = InsertEvent eid top ts src pl now.
Proof.
  destruct st as [eid top ts src pl now| | |]; cbn; try done.
  intros H. split; [|by eauto 10].
  destruct eid, top, src; try congruence.
  destruct (has_event_id _ _); congruence.
Qed.

(** One step of symbolic execution: replace the next driver call by the
    cases of its view, with the exception class made explicit. *)
Ltac py_step :=
  match goal with
  | |- context [get_db_connection ?w] =>
      destruct (get_db_connectionP w) as [?|? ? ?]
  | |- context [execute ?st ?w] =>
      let H := fresh "Hrun" in
      destruct (executeP st w) as [? ? H|[] ?|? ? H];
      [| | |destruct (run_statement_raise _ _ _ H) as [-> ?]]
  | |- context [commit ?w] => destruct (commitP w) as [?|[] ?]
  | |- context [rollback ?w] => destruct (rollbackP w) as [?|[] ?]
  end; cbn [exn_of_fault]; cbv beta iota.

(** ** [insert_event] on any world *)

Lemma insert_eventP now ev w :
  persisted now ev (committed w)
    (insert_event now ev w).1 (committed (insert_event now ev w).2).
Proof.
  unfold insert_event, bind, try_except.
  destruct (get_db_connectionP w) as [s0|e s0 He]; [|apply persisted_raised].
  unfold execute_insert.
  destruct (insert_statement now ev) as [st|e] eqn:Hst.
  - repeat py_step; py_proj; try discriminate; try by constructor.
    + by eapply persisted_created.
    + by eapply persisted_duplicate.
  - unfold raise, insert_statement in *.
    assert (e = OtherException) as ->
      by (repeat case_match; congruence).
    repeat py_step; py_proj; by constructor.
Qed.

Lemma insert_event_queue now ev w :
  event_queue (insert_event now ev w).2 = event_queue w.
Proof.
  unfold insert_event, bind, try_except, execute_insert.
  py_step; [|done].
  destruct (insert_statement now ev) as [st|e] eqn:Hst.
  - by repeat py_step.
  - unfold raise. by destruct e; repeat py_step.
Qed.

Lemma increment_receivedP w :
  counted (committed w)
    (increment_received w).1 (committed (increment_received w).2).
Proof.
  unfold increment_received, bind.
  repeat py_step; py_proj; try discriminate; by constructor.
Qed.

Lemma increment_received_queue w :
  event_queue (increment_received w).2 = event_queue w.
Proof. unfold increment_received, bind. by repeat py_step. Qed.

(** ** [insert_event] when the store answers every call *)

Lemma insert_event_fresh now q c t eid top src ts pl :
  has_event_id eid c = false ->
  insert_event now (mkEvent (JStr top) (JStr eid) (JStr src) ts pl)
    (mkWorld q c t []) =
  (Ok (true, false),
   mkWorld q (stored now eid top src ts pl c) (stored now eid top src ts pl c)
     []).
Proof.
  intros Hfresh.
  unfold insert_event, get_db_connection, execute_insert, execute, commit,
    connect, driver_call, try_except, bind, ret; cbn.
  by rewrite Hfresh.
Qed.


Lemma has_event_id_dropped n eid c :
  has_event_id eid (dropped n c) = has_event_id eid c.
Proof. done. Qed.



Lemma filter_event_id_fresh eid (rows : list Row) :
  eid ∉ r_event_id <$> rows ->
  filter (fun r => r_event_id r = eid) rows = [].
Proof.
  intros Hfresh. induction rows as [|r rows IH]; [done|].
  rewrite fmap_cons, not_elem_of_cons in Hfresh. destruct Hfresh as [Hne Hrest].
  rewrite filter_cons_False by done. by apply IH.
Qed.



Section Answered.
Context (eid top src : string) (ts : datetime) (pl : json).

Local Abbreviation ev := (mkEvent (JStr top) (JStr eid) (JStr src) ts pl).

Hypothesis eid_fits : (String.length eid <= varchar_limit)%nat.
Hypothesis top_fits : (String.length top <= varchar_limit)%nat.
Hypothesis src_fits : (String.length src <= varchar_limit)%nat.





End Answered.




(** The counters give out in the same way.  With [duplicate_dropped] at
    the largest INTEGER, a record of the [event_id] stored and the store
    up, the UPDATE of the duplicate is rejected inside the handler of the
    IntegrityError: the call raises, and the duplicate is not counted. *)
Lemma persist_duplicate_counter_full :
  insert_event 12
    (mkEvent (JStr "t") (JStr "e1") (JStr "s") 5 (JObj []))
    (mkWorld []
       (mkDB [mkRow "e1" "t" 5 "s" (JObj []) 10 10] (mkStats 0 1 integer_max))
       (mkDB [mkRow "e1" "t" 5 "s" (JObj []) 10 10] (mkStats 0 1 integer_max))
       (store_answers 12
          (mkEvent (JStr "t") (JStr "e1") (JStr "s") 5 (JObj []))
          (mkDB [mkRow "e1" "t" 5 "s" (JObj []) 10 10]
             (mkStats 0 1 integer_max)))) =
  (Raise OtherException,
   mkWorld []
     (mkDB [mkRow "e1" "t" 5 "s" (JObj []) 10 10] (mkStats 0 1 integer_max))
     (mkDB [mkRow "e1" "t" 5 "s" (JObj []) 10 10] (mkStats 0 1 integer_max))
     []).
Proof. by vm_compute. Qed.

(** ** The outcomes of [insert_event] *)

Lemma run_insert_ok now ev st d d1 :
  insert_statement now ev = Ok st ->
  run_statement st d = Ok d1 ->
  stats d1 = stats d /\
  exists row, processed_events d1 = processed_events d ++ [row] /\
    event_id ev = JStr (r_event_id row) /\
    r_event_id row ∉ r_event_id <$> processed_events d.
Proof.
  unfold insert_statement. intros Hst Hrun.
  destruct (adapt (event_id ev)) as [eid|] eqn:Heid; [|done].
  destruct (adapt (topic ev)) as [top|]; [|done].
  destruct (adapt (source ev)) as [src|]; [|done].
  injection Hst as <-. cbn in Hrun.
  destruct eid as [|eid], top as [|top], src as [|src]; try done.
  destruct (has_event_id eid d) eqn:Hid; [done|].
  injection Hrun as <-. split; [done|]. eexists; split; [done|]. cbn.
  split.
  - destruct (event_id ev); cbn in Heid; congruence.
  - by apply bool_decide_eq_false in Hid.
Qed.

(** C3. A call that returns Created adds one to [unique_processed] and to
    nothing else, a call that returns Duplicate adds one to
    [duplicate_dropped] and to nothing else, a call that returns Failed
    leaves the counters as they were; no other pair is returned. *)
Theorem one_increment_per_outcome now ev w success is_dup w' :
  insert_event now ev w = (Ok (success, is_dup), w') ->
  stats (committed w') =
    match success, is_dup with
    | true, false =>
        mkStats (received (stats (committed w)))
          (unique_processed (stats (committed w)) + 1)
          (duplicate_dropped (stats (committed w)))
    | true, true =>
        mkStats (received (stats (committed w)))
          (unique_processed (stats (committed w)))
          (duplicate_dropped (stats (committed w)) + 1)
    | false, _ => stats (committed w)
    end /\
  (success, is_dup) <> (false, true).
Proof.
  intros Hcall. pose proof (insert_eventP now ev w) as Hp.
  rewrite Hcall in Hp; cbn [fst snd] in Hp.
  inversion Hp as [st d1 d2 Hst Hrun Hincr|st d1 Hst Hrun Hincr| |]; subst.
  - destruct (run_insert_ok _ _ _ _ _ Hst Hrun) as [Hstats _].
    cbn in Hincr. injection Hincr as <-. cbn. by rewrite Hstats.
  - cbn in Hincr. by injection Hincr as <-.
  - done.
Qed.

Lemma one_increment_per_outcome_witness :
  stats (committed
           (insert_event 10 (mkEvent (JStr "t") (JStr "e1") (JStr "s") 5 JNull)
              (mkWorld [] init_db init_db [])).2) = mkStats 0 1 0 /\
  (true, false) <> (false, true).
Proof.
  apply (one_increment_per_outcome 10
           (mkEvent (JStr "t") (JStr "e1") (JStr "s") 5 JNull)
           (mkWorld [] init_db init_db []) true false).
  reflexivity.
Defined.

(** C10. After any call of [insert_event], whatever the store did and
    whatever was returned, the committed state either holds the new record
    together with the increment of [unique_processed] (and the call
    returned Created), or holds neither. *)
Theorem created_is_atomic now ev w :
  (exists row,
      (insert_event now ev w).1 = Ok (true, false) /\
      processed_events (committed (insert_event now ev w).2) =
        processed_events (committed w) ++ [row] /\
      unique_processed (stats (committed (insert_event now ev w).2)) =
        (unique_processed (stats (committed w)) + 1)%Z) \/
  (processed_events (committed (insert_event now ev w).2) =
     processed_events (committed w) /\
   unique_processed (stats (committed (insert_event now ev w).2)) =
     unique_processed (stats (committed w))).
Proof.
  destruct (insert_eventP now ev w)
    as [st d1 d2 Hst Hrun Hincr|st d1 Hst Hrun Hincr| |].
  - left. destruct (run_insert_ok _ _ _ _ _ Hst Hrun) as [Hstats [row [Hrows _]]].
    exists row. cbn in Hincr. injection Hincr as <-. cbn.
    by rewrite Hstats, Hrows.
  - right. cbn in Hincr. by injection Hincr as <-.
  - by right.
  - by right.
Qed.

(** C2, at a failing input: when the store cannot be reached (five
    connection attempts fail) [insert_event] returns nothing at all, the
    exception of [get_db_connection] leaves it: there is no rollback and no
    Failed outcome. *)
Theorem insert_event_raises_without_connection now ev q c t :
  insert_event now ev
    (mkWorld q c t (replicate max_retries (Some ConnectionLost))) =
  (Raise OtherException, mkWorld q c t []).
Proof. reflexivity. Qed.

(** A violated NOT NULL is an IntegrityError as well: an event whose topic
    is [None] is answered Duplicate and counted as one, with no record of
    that [event_id] in the store. *)
Lemma insert_event_null_topic now q c t eid src ts pl :
  insert_event now (mkEvent JNull (JStr eid) (JStr src) ts pl)
    (mkWorld q c t []) =
  (Ok (true, true), mkWorld q (dropped 1 c) (dropped 1 c) []).
Proof. reflexivity. Qed.

(** A failure of the statement that records the duplicate leaves
    [insert_event] as an exception too. *)
Lemma insert_event_raises_in_handler now q c t eid top src ts pl f :
  has_event_id eid c = true ->
  insert_event now (mkEvent (JStr top) (JStr eid) (JStr src) ts pl)
    (mkWorld q c t [None; None; None; Some f]) =
  (Raise (exn_of_fault f), mkWorld q c c []).
Proof.
  intros Hknown.
  unfold insert_event, get_db_connection, execute_insert, execute, commit,
    rollback, connect, driver_call, try_except, bind, ret; cbn.
  by rewrite Hknown.
Qed.

(** A failure inside the [try] is answered Failed, after a rollback. *)
Lemma insert_event_failed_in_try now ev st q c t f :
  insert_statement now ev = Ok st ->
  insert_event now ev (mkWorld q c t [None; Some f]) =
  (Ok (false, false), mkWorld q c c []).
Proof.
  intros Hst.
  unfold insert_event, get_db_connection, execute_insert, execute, commit,
    rollback, connect, driver_call, try_except, bind, ret, raise; cbn.
  rewrite Hst; cbn. by destruct f.
Qed.

(** C4, at a failing input: with the store out of reach the exception of
    [get_db_connection] passes through [insert_event] and through the
    worker loop, which ends there; the next event stays in the queue. *)
Theorem worker_ends_without_connection now later ev next q c t :
  worker (now :: later)
    (mkWorld (ev :: next :: q) c t (replicate max_retries (Some ConnectionLost))) =
  (Raise OtherException, mkWorld (next :: q) c t []).
Proof. reflexivity. Qed.

(** Where the failure happens inside the [try] of [insert_event] the
    worker goes on to the next event. *)
Lemma worker_continues_after_failed now1 now2 ev st eid top src ts pl c t f :
  insert_statement now1 ev = Ok st ->
  has_event_id eid c = false ->
  (worker [now1; now2]
     (mkWorld [ev; mkEvent (JStr top) (JStr eid) (JStr src) ts pl] c t
        [None; Some f])).1 =
  Ok [LogOk (topic ev) (event_id ev); LogOk (JStr top) (JStr eid)].
Proof.
  intros Hst Hfresh. cbn [worker]. unfold bind at 1.
  unfold worker_iteration at 1, bind at 1, dequeue at 1; py_proj.
  unfold bind at 1.
  rewrite (insert_event_failed_in_try _ _ st) by done.
  cbn [snd ret]. unfold bind at 1, bind at 1.
  unfold worker_iteration at 1, bind at 1, dequeue at 1; py_proj.
  unfold bind at 1.
  by rewrite insert_event_fresh.
Qed.

(** ** The gateway *)

Lemma first_missing_Some fields data field :
  first_missing fields data = Some field ->
  field ∈ fields /\ data !! field = None.
Proof.
  induction fields as [|f rest IH]; cbn; [done|].
  destruct (data !! f) eqn:Hf.
  - intros H. destruct (IH H). split; [by right|done].
  - intros [= <-]. split; [by left|done].
Qed.

Lemma first_missing_None fields data :
  first_missing fields data = None <->
  forall field, field ∈ fields -> is_Some (data !! field).
Proof.
  induction fields as [|f rest IH]; cbn.
  - split; [|done]. intros _ field Hin. by apply elem_of_nil in Hin.
  - destruct (data !! f) eqn:Hf.
    + rewrite IH. split.
      * intros H field [->|Hin]%elem_of_cons; [by rewrite Hf|by apply H].
      * intros H field Hin. apply H. by right.
    + split; [done|]. intros H.
      destruct (H f) as [v Hv]; [by left|congruence].
Qed.

Section GatewayProofs.

Variable fromisoformat : string -> option datetime.

(** The checks reject exactly the malformed bodies. *)
Lemma validate_inl_iff data :
  (exists e, validate fromisoformat data = inl e) <->
  malformed fromisoformat data.
Proof.
  unfold validate, malformed. split.
  - intros [e He].
    destruct (first_missing required data) as [field|] eqn:Hmiss.
    + left. exists field. by apply first_missing_Some.
    + right. pose proof (proj1 (first_missing_None _ _) Hmiss) as Hall.
      destruct (Hall "timestamp"%string) as [v Hv]; [set_solver|].
      exists v. split; [done|].
      rewrite (lookup_total_correct _ _ _ Hv) in He.
      by destruct (parse_timestamp fromisoformat v).
  - intros [[field [Hin Hnone]]|[v [Hv Hparse]]].
    + destruct (first_missing required data) as [f|] eqn:Hmiss; [by eauto|].
      destruct (proj1 (first_missing_None _ _) Hmiss field Hin); congruence.
    + destruct (first_missing required data) as [f|]; [by eauto|].
      rewrite (lookup_total_correct _ _ _ Hv), Hparse. by eauto.
Qed.

Lemma publish_invalid data e w :
  validate fromisoformat data = inl e ->
  publish fromisoformat data w = (Ok (BadRequest e), w).
Proof. intros He. unfold publish. by rewrite He. Qed.

(** C6. A malformed body is answered 400 by [publish] and leaves the world
    as it was: nothing is appended to the queue, no call reaches the store,
    no counter moves. *)
Theorem publish_rejects_malformed data w :
  malformed fromisoformat data ->
  exists e, publish fromisoformat data w = (Ok (BadRequest e), w).
Proof.
  intros [e He]%validate_inl_iff. exists e. by apply publish_invalid.
Qed.

Lemma increment_received_ok q c t :
  increment_received (mkWorld q c t []) =
  (Ok tt, mkWorld q (counted_in 1 c) (counted_in 1 c) []).
Proof. reflexivity. Qed.

Lemma publish_valid data ts q c t :
  validate fromisoformat data = inr ts ->
  publish fromisoformat data (mkWorld q c t []) =
  (Ok (Accepted (data !!! "event_id"%string)),
   mkWorld (q ++ [event_of data ts]) (counted_in 1 c) (counted_in 1 c) []).
Proof. intros Hv. unfold publish. by rewrite Hv. Qed.

Lemma publish_batch_loop_prefix events count q c t :
  exists r,
    publish_batch_loop fromisoformat events count (mkWorld q c t []) =
    (Ok r, submit_each fromisoformat (valid_prefix fromisoformat events)
             (mkWorld q c t [])) /\
    (valid_prefix fromisoformat events = events ->
     r = AcceptedBatch (count + length events)) /\
    (valid_prefix fromisoformat events <> events -> exists e, r = BadRequest e).
Proof.
  revert count q c t. induction events as [|event rest IH]; intros count q c t.
  - eexists. split; [done|]. split; [|done]. intros _; cbn. f_equal. lia.
  - cbn [publish_batch_loop valid_prefix].
    destruct (validate fromisoformat event) as [e|ts] eqn:Hv.
    + destruct e; eexists; (split; [done|]); split; try done; by eauto.
    + cbn [submit_each foldl]. rewrite (publish_valid _ ts) by done.
      unfold bind at 1, enqueue at 1; py_proj.
      unfold bind at 1. rewrite increment_received_ok.
      destruct (IH (count + 1)%nat (q ++ [event_of event ts])
                  (counted_in 1 c) (counted_in 1 c)) as (r & Hw & Hall & Hbad).
      exists r. split; [exact Hw|]. split.
      * intros [= Hrest]. rewrite Hall by done. cbn. f_equal. lia.
      * intros Hne. apply Hbad. congruence.
Qed.

Lemma submit_each_cons data bodies w :
  submit_each fromisoformat (data :: bodies) w =
  submit_each fromisoformat bodies (publish fromisoformat data w).2.
Proof. reflexivity. Qed.

Lemma submit_each_valid_prefix events q c t :
  length (event_queue
            (submit_each fromisoformat (valid_prefix fromisoformat events)
               (mkWorld q c t []))) =
    (length q + length (valid_prefix fromisoformat events))%nat /\
  received (stats (committed
                     (submit_each fromisoformat
                        (valid_prefix fromisoformat events)
                        (mkWorld q c t [])))) =
    (received (stats c) +
     Z.of_nat (length (valid_prefix fromisoformat events)))%Z.
Proof.
  revert q c t. induction events as [|event rest IH]; intros q c t.
  - cbn. lia.
  - cbn [valid_prefix].
    destruct (validate fromisoformat event) as [e|ts] eqn:Hv; [cbn; lia|].
    rewrite submit_each_cons, (publish_valid _ ts) by done. cbn [snd].
    destruct (IH (q ++ [event_of event ts]) (counted_in 1 c) (counted_in 1 c))
      as [Hq Hr].
    rewrite Hq, Hr, length_app. cbn. lia.
Qed.

(** C5, as the code has it.  With a store that answers every call,
    [publish_batch] does what one [publish] per event does for the events
    before the first invalid one, each appended and counted in turn; it is
    answered 202 with the number of events when every event is valid, and
    400 otherwise, the first invalid event and every event after it being
    left out. *)
Theorem publish_batch_stops_at_first_invalid events q c t :
  exists r,
    publish_batch fromisoformat (Some events) (mkWorld q c t []) =
    (Ok r, submit_each fromisoformat (valid_prefix fromisoformat events)
             (mkWorld q c t [])) /\
    (valid_prefix fromisoformat events = events ->
     r = AcceptedBatch (length events)) /\
    (valid_prefix fromisoformat events <> events -> exists e, r = BadRequest e) /\
    length (event_queue
              (submit_each fromisoformat (valid_prefix fromisoformat events)
                 (mkWorld q c t []))) =
      (length q + length (valid_prefix fromisoformat events))%nat /\
    received (stats (committed
                       (submit_each fromisoformat
                          (valid_prefix fromisoformat events)
                          (mkWorld q c t [])))) =
      (received (stats c) +
       Z.of_nat (length (valid_prefix fromisoformat events)))%Z.
Proof.
  destruct (publish_batch_loop_prefix events 0 q c t) as (r & Hw & Hall & Hbad).
  exists r. split; [exact Hw|]. split; [exact Hall|]. split; [exact Hbad|].
  apply submit_each_valid_prefix.
Qed.

End GatewayProofs.

Lemma publish_rejects_malformed_witness :
  exists e,
    publish fromisoformat_sample {["topic"%string := JStr "test"]}
      (mkWorld [] init_db init_db [Some ConnectionLost]) =
    (Ok (BadRequest e), mkWorld [] init_db init_db [Some ConnectionLost]).
Proof.
  apply (publish_rejects_malformed fromisoformat_sample).
  left. exists "event_id"%string. split.
  - unfold required. rewrite !elem_of_cons. tauto.
  - reflexivity.
Defined.

(** An unparseable timestamp is rejected in the same way. *)
Lemma publish_rejects_bad_timestamp w :
  publish fromisoformat_sample
    (<["timestamp"%string := JStr "not-a-timestamp"]> (sample_body "e1")) w =
  (Ok (BadRequest InvalidTimestampFormat), w).
Proof. by apply publish_invalid. Qed.

(** C5, as the claim has it, fails: in a batch of an invalid event followed
    by a valid one nothing is appended and nothing is counted, while the
    two requests made one by one append and count the valid event. *)
Lemma publish_batch_drops_valid_after_invalid :
  validate fromisoformat_sample (sample_body "e1") = inr 1735689600%Z /\
  (publish_batch fromisoformat_sample (Some [∅; sample_body "e1"])
     (mkWorld [] init_db init_db [])).2 = mkWorld [] init_db init_db [] /\
  submit_each fromisoformat_sample [∅; sample_body "e1"]
    (mkWorld [] init_db init_db []) =
  mkWorld [mkEvent (JStr "t") (JStr "e1") (JStr "s") 1735689600 (JObj [])]
    (mkDB [] (mkStats 1 0 0)) (mkDB [] (mkStats 1 0 0)) [].
Proof. split; [|split]; reflexivity. Qed.

(** ** The listing *)

#[global] Instance arrived_no_earlier_total : Total arrived_no_earlier.
Proof. intros r1 r2. unfold arrived_no_earlier. lia. Qed.





(** The newest record of topic "a" is the page of the example above. *)
Example listing_example :
  (get_events_from_db (Some "a"%string) 1 0
     (mkWorld []
        (mkDB [mkRow "e1" "a" 5 "s" JNull 10 10; mkRow "e2" "b" 5 "s" JNull 11 11;
               mkRow "e3" "a" 5 "s" JNull 12 12] (mkStats 3 3 0))
        init_db [])).1 =
  Ok [mkEventView "e3" "a" 5 "s" JNull 12].
Proof. reflexivity. Qed.


(** A negative limit is rejected by the store, and the exception leaves
    [get_events_from_db]. *)
Lemma listing_negative_limit topic offset q c t :
  get_events_from_db topic (-1) offset (mkWorld q c t []) =
  (Raise OtherException, mkWorld q c c []).
Proof. reflexivity. Qed.

(** So is a limit or an offset past the largest bigint, which [int] takes
    from the query string all the same. *)
Lemma listing_limit_out_of_range topic q c t :
  get_events_from_db topic (bigint_max + 1) 0 (mkWorld q c t []) =
  (Raise OtherException, mkWorld q c c []) /\
  get_events_from_db topic 100 (bigint_max + 1) (mkWorld q c t []) =
  (Raise OtherException, mkWorld q c c []).
Proof. split; reflexivity. Qed.

(** ** The threads together *)

Arguments insert_event : simpl never.
Arguments increment_received : simpl never.

Lemma step_queue_claims s a s' :
  step s a = Some s' ->
  (claims s').*2 ++ sys_queue s' =
  (claims s).*2 ++ sys_queue s ++ enqueued [a].
Proof.
  destruct a as [ev|faults|k|k now faults]; unfold step, dequeue, world_of; cbn.
  - intros [= <-]; cbn. done.
  - destruct (pending s); [done|]. intros [= <-]; cbn. by rewrite app_nil_r.
  - case_decide; [|done]. rewrite app_nil_r.
    destruct (sys_queue s) as [|ev q] eqn:Hq; cbn.
    + intros [= <-]. by rewrite Hq.
    + intros [= <-]; cbn. by rewrite fmap_app, <- app_assoc.
  - destruct (in_flight s !! k); [|done]. intros [= <-]; cbn.
    by rewrite app_nil_r.
Qed.

Lemma exec_queue_claims trace s s' :
  exec s trace = Some s' ->
  (claims s').*2 ++ sys_queue s' =
  (claims s).*2 ++ sys_queue s ++ enqueued trace.
Proof.
  revert s. induction trace as [|a rest IH]; intros s; cbn [exec].
  - intros [= <-]. by rewrite app_nil_r.
  - destruct (step s a) as [s1|] eqn:Hstep; [|done]. intros Hrest.
    rewrite (IH _ Hrest), app_assoc, (step_queue_claims _ _ _ Hstep).
    rewrite <- !app_assoc. by destruct a.
Qed.

Lemma step_in_flight_claimed s a s' :
  step s a = Some s' ->
  (forall k ev, in_flight s !! k = Some ev -> (k, ev) ∈ claims s) ->
  forall k ev, in_flight s' !! k = Some ev -> (k, ev) ∈ claims s'.
Proof.
  intros Hstep Hinv k ev.
  destruct a as [ev0|faults|k0|k0 now faults];
    unfold step, dequeue, world_of in Hstep; cbn in Hstep.
  - injection Hstep as <-; cbn. apply Hinv.
  - destruct (pending s); [done|]. injection Hstep as <-; cbn. apply Hinv.
  - case_decide; [|done].
    destruct (sys_queue s) as [|ev0 q]; cbn in Hstep;
      injection Hstep as <-; [apply Hinv|]; cbn.
    rewrite elem_of_app, list_elem_of_singleton.
    destruct (decide (k0 = k)) as [->|Hne].
    + rewrite lookup_insert_eq. intros [= ->]. by right.
    + rewrite lookup_insert_ne by done. intros Hk. left. by apply Hinv.
  - destruct (in_flight s !! k0); [|done]. injection Hstep as <-; cbn.
    intros Hk. apply Hinv. by apply lookup_delete_Some in Hk as [_ Hk].
Qed.

Lemma exec_in_flight_claimed trace s s' :
  exec s trace = Some s' ->
  (forall k ev, in_flight s !! k = Some ev -> (k, ev) ∈ claims s) ->
  forall k ev, in_flight s' !! k = Some ev -> (k, ev) ∈ claims s'.
Proof.
  revert s. induction trace as [|a rest IH]; intros s; cbn [exec].
  - by intros [= <-].
  - destruct (step s a) as [s1|] eqn:Hstep; [|done]. intros Hrest Hinv.
    apply (IH _ Hrest). by apply (step_in_flight_claimed _ _ _ Hstep).
Qed.

(** C8. In every state the threads can reach: the events popped so far, in
    the order they were popped, followed by the queue are the events
    appended so far in the order they were appended (first in, first out,
    nothing lost and nothing twice); an append puts the event at the tail;
    a pop takes the head and hands it to the one worker that popped, the
    other workers holding what they held; and what a worker holds was
    popped by that worker. *)
Theorem queue_is_fifo_and_exclusive trace s :
  exec init_sys trace = Some s ->
  (claims s).*2 ++ sys_queue s = enqueued trace /\
  (forall ev s', step s (Append ev) = Some s' ->
     sys_queue s' = sys_queue s ++ [ev]) /\
  (forall k ev q s', step s (Claim k) = Some s' -> sys_queue s = ev :: q ->
     sys_queue s' = q /\ claims s' = claims s ++ [(k, ev)] /\
     in_flight s' !! k = Some ev /\
     forall k', k' <> k -> in_flight s' !! k' = in_flight s !! k') /\
  (forall k ev, in_flight s !! k = Some ev -> (k, ev) ∈ claims s).
Proof.
  intros Hexec. split; [|split; [|split]].
  - by rewrite (exec_queue_claims _ _ _ Hexec).
  - intros ev s' [= <-]. done.
  - intros k ev q s' Hstep Hq.
    unfold step, dequeue, world_of in Hstep; cbn in Hstep.
    case_decide; [|done].
    rewrite Hq in Hstep; cbn in Hstep. injection Hstep as <-; cbn.
    split; [done|]. split; [done|]. split; [by rewrite lookup_insert_eq|].
    intros k' Hne. by rewrite lookup_insert_ne.
  - by apply (exec_in_flight_claimed _ _ _ Hexec).
Qed.

Lemma queue_is_fifo_and_exclusive_witness :
  exec init_sys [Append (sample_event "e1"); Append (sample_event "e2"); Claim 0] =
    Some (mkSys [sample_event "e2"] init_db {[0%nat := sample_event "e1"]} ∅ 2
            [(0%nat, sample_event "e1")]) /\
  [sample_event "e1"] ++ [sample_event "e2"] =
    [sample_event "e1"; sample_event "e2"].
Proof.
  split; [reflexivity|].
  exact (proj1 (queue_is_fifo_and_exclusive
                  [Append (sample_event "e1"); Append (sample_event "e2"); Claim 0]
                  (mkSys [sample_event "e2"] init_db
                     {[0%nat := sample_event "e1"]} ∅ 2
                     [(0%nat, sample_event "e1")])
                  eq_refl)).
Defined.

Lemma persisted_consistent now ev d r d' :
  persisted now ev d r d' -> db_consistent d -> db_consistent d'.
Proof.
  intros [st d1 d2 Hst Hrun Hincr|st d1 Hst Hrun Hincr| |] [Hcount Hnodup];
    try done.
  - destruct (run_insert_ok _ _ _ _ _ Hst Hrun)
      as [Hstats [row [Hrows [_ Hfresh]]]].
    cbn in Hincr. injection Hincr as <-. unfold db_consistent; cbn.
    rewrite Hstats, Hrows, length_app, fmap_app, Hcount. split; [cbn; lia|].
    apply NoDup_app. split; [done|]. split; [|apply NoDup_singleton].
    intros x Hx [->|[]%elem_of_nil]%elem_of_cons. done.
  - cbn in Hincr. by injection Hincr as <-.
Qed.

Lemma counted_consistent d r d' :
  counted d r d' -> db_consistent d -> db_consistent d'.
Proof.
  intros [d1 Hrun|e]; [|done]. cbn in Hrun. by injection Hrun as <-.
Qed.

Lemma step_consistent s a s' :
  step s a = Some s' -> db_consistent (sys_db s) -> db_consistent (sys_db s').
Proof.
  destruct a as [ev|faults|k|k now faults];
    unfold step, dequeue; cbn.
  - by intros [= <-].
  - destruct (pending s); [done|]. intros [= <-]; cbn.
    apply (counted_consistent _ _ _ (increment_receivedP (world_of s faults))).
  - case_decide; [|done]. by destruct (sys_queue s); intros [= <-].
  - destruct (in_flight s !! k) as [ev|]; [|done]. intros [= <-]; cbn.
    apply (persisted_consistent _ _ _ _ _
             (insert_eventP now ev (world_of s faults))).
Qed.

Lemma unique_processed_counts_records trace s :
  exec init_sys trace = Some s -> db_consistent (sys_db s).
Proof.
  assert (forall s0, db_consistent (sys_db s0) ->
                     exec s0 trace = Some s -> db_consistent (sys_db s)) as H.
  { induction trace as [|a rest IH]; intros s0 H0; cbn [exec].
    - by intros [= <-].
    - destruct (step s0 a) as [s1|] eqn:Hstep; [|done].
      apply IH. by apply (step_consistent _ _ _ Hstep). }
  apply H. split; [done|]. cbn. apply NoDup_nil_2.
Qed.

(** C7, at a failing input.  A submit whose [increment_received] cannot
    reach the store has already appended its event; a worker then stores
    it.  The queue is empty, no worker holds an event, no submit is under
    way, and [unique_processed] + [duplicate_dropped] is 1 while [received]
    is 0. *)
Theorem drained_counters_exceed_received :
  exists s,
    exec init_sys
      [Append (sample_event "e1");
       CountReceived (replicate max_retries (Some ConnectionLost));
       Claim 0; Persist 0 10 []] = Some s /\
    sys_queue s = [] /\ in_flight s = ∅ /\ pending s = 0%nat /\
    ~ (unique_processed (stats (sys_db s)) + duplicate_dropped (stats (sys_db s))
       <= received (stats (sys_db s)))%Z.
Proof.
  eexists. split; [vm_compute; reflexivity|].
  split; [done|]. split; [done|]. split; [done|]. cbn. lia.
Qed.

(** The same is seen with a store that answers every call, for as long as
    the gateway thread stands between its append and its
    [increment_received]. *)
Lemma drained_before_counted :
  exists s,
    exec init_sys [Append (sample_event "e1"); Claim 0; Persist 0 10 []] =
      Some s /\
    sys_queue s = [] /\ in_flight s = ∅ /\ pending s = 1%nat /\
    stats (sys_db s) = mkStats 0 1 0.
Proof. eexists. split; [vm_compute; reflexivity|]. done. Qed.

Lemma persisted_counters now ev d r d' :
  persisted now ev d r d' ->
  received (stats d') = received (stats d) /\
  (unique_processed (stats d') + duplicate_dropped (stats d')
   <= unique_processed (stats d) + duplicate_dropped (stats d) + 1)%Z.
Proof.
  intros [st d1 d2 Hst Hrun Hincr|st d1 Hst Hrun Hincr| |].
  - destruct (run_insert_ok _ _ _ _ _ Hst Hrun) as [Hstats _].
    cbn in Hincr. injection Hincr as <-. cbn. rewrite Hstats. lia.
  - cbn in Hincr. injection Hincr as <-. cbn. lia.
  - lia.
  - lia.
Qed.

Lemma step_accounted s a s' :
  step s a = Some s' -> counts_succeed [a] -> accounted s -> accounted s'.
Proof.
  unfold accounted.
  destruct a as [ev|faults|k|k now faults]; unfold step, dequeue; cbn.
  - intros [= <-] _; cbn. rewrite length_app; cbn. lia.
  - destruct (pending s) as [|n]; [done|]. intros [= <-] [-> _]; cbn.
    unfold world_of. rewrite increment_received_ok; cbn. lia.
  - case_decide as Hk; [|done]. destruct Hk as (_ & _ & Hfree).
    destruct (sys_queue s) as [|ev q] eqn:Hq; intros [= <-] _; cbn;
      [by rewrite Hq|].
    rewrite map_size_insert_None by done. lia.
  - destruct (in_flight s !! k) as [ev|] eqn:Hk; [|done].
    intros [= <-] _; cbn.
    destruct (persisted_counters _ _ _ _ _
                (insert_eventP now ev (world_of s faults))) as [Hr Hud].
    cbn in Hr, Hud. rewrite Hr, map_size_delete_Some by done.
    assert (size (in_flight s) <> 0%nat).
    { apply map_size_non_empty_iff. intros Hempty.
      by rewrite Hempty, lookup_empty in Hk. }
    lia.
Qed.

Lemma exec_accounted trace s s' :
  exec s trace = Some s' -> counts_succeed trace -> accounted s -> accounted s'.
Proof.
  revert s. induction trace as [|a rest IH]; intros s; cbn [exec].
  - by intros [= <-].
  - destruct (step s a) as [s1|] eqn:Hstep; [|done]. intros Hrest Hok Hacc.
    apply (IH _ Hrest).
    + by destruct a; cbn in Hok; try destruct Hok.
    + apply (step_accounted _ _ _ Hstep); [|done].
      by destruct a; cbn in *; try destruct Hok.
Qed.

(** When every [increment_received] went through, a drained system with no
    submit under way has [unique_processed] + [duplicate_dropped] at most
    [received]. *)
Lemma drained_counters_bounded trace s :
  exec init_sys trace = Some s -> counts_succeed trace ->
  sys_queue s = [] -> in_flight s = ∅ -> pending s = 0%nat ->
  (unique_processed (stats (sys_db s)) + duplicate_dropped (stats (sys_db s))
   <= received (stats (sys_db s)))%Z.
Proof.
  intros Hexec Hok Hq Hf Hp.
  assert (accounted s) as Hacc.
  { apply (exec_accounted _ _ _ Hexec Hok). unfold accounted; cbn.
    rewrite map_size_empty. lia. }
  unfold accounted in Hacc. rewrite Hq, Hf, Hp, map_size_empty in Hacc.
  cbn in Hacc. lia.
Qed.

(** ** The handlers and the worker as steps of the system *)

(** An accepted [publish] is an append followed by a count. *)
Lemma publish_as_steps fromisoformat data ts s faults :
  validate fromisoformat data = inr ts ->
  exists s',
    exec s [Append (event_of data ts); CountReceived faults] = Some s' /\
    sys_queue s' = event_queue (publish fromisoformat data (world_of s faults)).2 /\
    sys_db s' = committed (publish fromisoformat data (world_of s faults)).2 /\
    pending s' = pending s.
Proof.
  intros Hv. unfold publish. rewrite Hv.
  unfold exec, step, world_of, bind, enqueue; py_proj; cbn [pending].
  eexists. split; [reflexivity|]. cbn.
  pose proof (increment_received_queue
                (mkWorld (sys_queue s ++ [event_of data ts]) (sys_db s)
                   (sys_db s) faults)) as Hq.
  by destruct (increment_received _) as [[[]|e] w'].
Qed.

(** One turn of a worker that finds an event is a pop followed by a
    persist. *)
Lemma worker_iteration_as_steps k now ev q s faults :
  (k < num_workers)%nat -> k ∉ crashed s -> in_flight s !! k = None ->
  sys_queue s = ev :: q ->
  exists s',
    exec s [Claim k; Persist k now faults] = Some s' /\
    sys_queue s' = event_queue (worker_iteration now (world_of s faults)).2 /\
    sys_db s' = committed (worker_iteration now (world_of s faults)).2 /\
    in_flight s' = in_flight s.
Proof.
  intros Hk Hlive Hfree Hq. eexists. split.
  - cbn [exec]. unfold step at 1, dequeue, world_of; cbn.
    rewrite decide_True by done. rewrite Hq; cbn.
    rewrite lookup_insert_eq. reflexivity.
  - cbn. unfold worker_iteration, bind, dequeue, world_of; cbn.
    rewrite Hq; cbn.
    pose proof (insert_event_queue now ev
                  (mkWorld q (sys_db s) (sys_db s) faults)) as Hqueue.
    destruct (insert_event now ev _) as [[[success is_dup]|e] w'];
      cbn in *; (split; [by destruct is_dup || done|]);
      (split; [by destruct is_dup || done|]);
      by rewrite delete_insert_eq, delete_id.
Qed.

(** ** The scenarios of the test suite, run on the model *)

(** [get_events] without arguments asks for the first hundred records. *)
Example get_events_defaults topic :
  get_events topic None None = get_events_from_db topic 100 0.
Proof. reflexivity. Qed.

(** The same event published three times and drained by one worker: one
    record, [received] 3, [unique_processed] 1, [duplicate_dropped] 2. *)
Example scenario_three_submits :
  let w1 := submit_each fromisoformat_sample
              [sample_body "e1"; sample_body "e1"; sample_body "e1"]
              (mkWorld [] init_db init_db []) in
  let rw := worker [10; 11; 12; 13]%Z w1 in
  rw.1 = Ok [LogOk (JStr "t") (JStr "e1"); LogDup (JStr "t") (JStr "e1");
             LogDup (JStr "t") (JStr "e1"); Slept] /\
  event_queue rw.2 = [] /\
  committed rw.2 =
    mkDB [mkRow "e1" "t" 1735689600 "s" (JObj []) 10 10] (mkStats 3 1 2).
Proof. by vm_compute. Qed.

(** A batch of four events, two pairs sharing an [event_id]: two records
    and two duplicates. *)
Example scenario_batch_with_duplicates :
  let rw := publish_batch fromisoformat_sample
              (Some [sample_body "bd-1"; sample_body "bd-1";
                     sample_body "bd-2"; sample_body "bd-2"])
              (mkWorld [] init_db init_db []) in
  let rw' := worker [10; 11; 12; 13]%Z rw.2 in
  rw.1 = Ok (AcceptedBatch 4) /\
  r_event_id <$> processed_events (committed rw'.2) = ["bd-1"; "bd-2"]%string /\
  stats (committed rw'.2) = mkStats 4 2 2.
Proof. by vm_compute. Qed.

(** * Further properties of the code *)

(** ** [get_db_connection] *)

(** X1. After fewer than [max_retries] attempts lost to the network, an
    attempt that goes through gives the connection: the call returns, the
    connection sees the committed state, and exactly the attempts made are
    used up. *)
Theorem get_db_connection_recovers k q c t rest :
  (k < max_retries)%nat ->
  get_db_connection
    (mkWorld q c t (replicate k (Some ConnectionLost) ++ None :: rest)) =
  (Ok tt, mkWorld q c c rest).
Proof.
  unfold max_retries. intros Hk.
  do 5 (destruct k as [|k]; [reflexivity|]). lia.
Qed.

Lemma get_db_connection_recovers_witness :
  get_db_connection
    (mkWorld [] init_db (mkDB [] (mkStats 7 7 7))
       (replicate 4 (Some ConnectionLost) ++ None :: [Some StoreFailure])) =
  (Ok tt, mkWorld [] init_db init_db [Some StoreFailure]).
Proof.
  apply (get_db_connection_recovers 4 [] init_db (mkDB [] (mkStats 7 7 7))
           [Some StoreFailure]).
  unfold max_retries. lia.
Defined.

(** X2. An exception of [connect] that is not an OperationalError is not
    retried: it leaves [get_db_connection] at once, whatever attempts would
    have followed. *)
Theorem get_db_connection_no_retry_on_other k q c t rest :
  (k < max_retries)%nat ->
  get_db_connection
    (mkWorld q c t
       (replicate k (Some ConnectionLost) ++ Some StoreFailure :: rest)) =
  (Raise OtherException, mkWorld q c t rest).
Proof.
  unfold max_retries. intros Hk.
  do 5 (destruct k as [|k]; [reflexivity|]). lia.
Qed.

Lemma get_db_connection_no_retry_on_other_witness :
  get_db_connection
    (mkWorld [] init_db init_db
       (replicate 0 (Some ConnectionLost) ++ Some StoreFailure :: [None])) =
  (Raise OtherException, mkWorld [] init_db init_db [None]).
Proof.
  apply (get_db_connection_no_retry_on_other 0 [] init_db init_db [None]).
  unfold max_retries. lia.
Defined.

Lemma get_db_connection_loop_bounded attempts w :
  (length (script w) <=
   length (script (get_db_connection_loop attempts w).2) + length attempts)%nat.
Proof.
  revert w. induction attempts as [|attempt rest IH]; intros w.
  - cbn. lia.
  - cbn [get_db_connection_loop]. unfold try_except, connect, bind, driver_call.
    destruct w as [q c t [|[[]|] s]]; unfold raise, set_script, set_tx;
      cbn [script fst snd exn_of_fault length committed event_queue tx];
      try lia.
    case_bool_decide; cbn [script snd]; [|lia].
    specialize (IH (mkWorld q c t s)). cbn [script length] in IH. lia.
Qed.

(** X3. Whatever the store does, [get_db_connection] makes at most
    [max_retries] attempts, and it changes neither the queue nor the
    committed data; when it raises, it is never an IntegrityError. *)
Theorem get_db_connection_bounded w :
  (length (script w) <=
   length (script (get_db_connection w).2) + max_retries)%nat /\
  event_queue (get_db_connection w).2 = event_queue w /\
  committed (get_db_connection w).2 = committed w /\
  (get_db_connection w).1 <> Raise IntegrityError.
Proof.
  split.
  - apply (get_db_connection_loop_bounded (seq 0 max_retries)).
  - by destruct (get_db_connectionP w) as [s'|e s' He]; cbn;
      repeat split; try congruence.
Qed.

(** ** [insert_event] *)

Ltac py_unfold :=
  unfold insert_event, get_db_connection, execute_insert, execute, commit,
    rollback, connect, driver_call, try_except, bind, ret, raise.

(** X4. A failure of the store inside the [try], at the INSERT, at the
    UPDATE of the counter or at the commit, is answered Failed after a
    rollback: the committed data are as before, also when the INSERT had
    already gone through on the connection. *)
Theorem insert_event_rolls_back j f now q c t eid top src ts pl :
  (j <= 2)%nat ->
  has_event_id eid c = false ->
  insert_event now (mkEvent (JStr top) (JStr eid) (JStr src) ts pl)
    (mkWorld q c t (None :: replicate j None ++ [Some f])) =
  (Ok (false, false), mkWorld q c c []).
Proof.
  intros Hj Hfresh.
  do 3 (destruct j as [|j];
        [py_unfold; cbn; rewrite ?Hfresh; by destruct f|]).
  lia.
Qed.

Lemma insert_event_rolls_back_witness :
  insert_event 10 (mkEvent (JStr "t") (JStr "e1") (JStr "s") 5 JNull)
    (mkWorld [] init_db init_db
       (None :: replicate 2 None ++ [Some ConnectionLost])) =
  (Ok (false, false), mkWorld [] init_db init_db []).
Proof.
  apply (insert_event_rolls_back 2 ConnectionLost 10 [] init_db init_db
           "e1" "t" "s" 5 JNull); [lia|reflexivity].
Defined.

(** X5. An event that has [None] for its topic, its event_id or its source
    (and no dict among them) violates NOT NULL, which the driver raises as
    an IntegrityError: with a store that answers, the call returns
    Duplicate, counts a duplicate and stores nothing. *)
Theorem insert_event_null_field_is_duplicate now ev st q c t :
  insert_statement now ev = Ok st ->
  topic ev = JNull \/ event_id ev = JNull \/ source ev = JNull ->
  insert_event now ev (mkWorld q c t []) =
  (Ok (true, true), mkWorld q (dropped 1 c) (dropped 1 c) []).
Proof.
  destruct ev as [top eid src ts pl]. cbn [topic event_id source].
  unfold insert_statement; cbn [topic event_id source timestamp payload].
  intros Hst Hnull.
  destruct top, eid, src; cbn in Hst; try done;
    try (destruct Hnull as [|[|]]; discriminate);
    reflexivity.
Qed.

Lemma insert_event_null_field_is_duplicate_witness :
  insert_event 10 (mkEvent (JStr "t") (JStr "e1") JNull 5 JNull)
    (mkWorld [] init_db init_db []) =
  (Ok (true, true),
   mkWorld [] (dropped 1 init_db) (dropped 1 init_db) []).
Proof.
  apply (insert_event_null_field_is_duplicate 10
           (mkEvent (JStr "t") (JStr "e1") JNull 5 JNull)
           (InsertEvent (PText "e1") (PText "t") 5 PNull JNull 10)
           [] init_db init_db).
  - reflexivity.
  - right. right. reflexivity.
Defined.


(** ** [worker] *)





(** ** The store under all interleavings *)

Lemma filter_event_id_NoDup eid (rows : list Row) :
  NoDup (r_event_id <$> rows) ->
  (length (filter (fun r => r_event_id r = eid) rows) <= 1)%nat.
Proof.
  induction rows as [|r rows IH]; [cbn; lia|].
  rewrite fmap_cons, NoDup_cons. intros [Hfresh Hnodup].
  destruct (decide (r_event_id r = eid)) as [Heq|Hne].
  - rewrite filter_cons_True by done. rewrite <- Heq.
    rewrite filter_event_id_fresh by done. cbn. lia.
  - rewrite filter_cons_False by done. by apply IH.
Qed.

(** X8. In every state the threads can reach, with any store failures on
    the way, no event_id has more than one stored record, and
    [unique_processed] is the number of stored records. *)
Theorem stored_records_are_unique trace s eid :
  exec init_sys trace = Some s ->
  (length (filter (fun r => r_event_id r = eid) (processed_events (sys_db s)))
   <= 1)%nat /\
  unique_processed (stats (sys_db s)) =
    Z.of_nat (length (processed_events (sys_db s))).
Proof.
  intros Hexec.
  destruct (unique_processed_counts_records _ _ Hexec) as [Hcount Hnodup].
  split; [by apply filter_event_id_NoDup|done].
Qed.

Lemma stored_records_are_unique_witness :
  (length (filter (fun r => r_event_id r = "e1"%string)
             (processed_events
                (mkDB [mkRow "e1" "t" 1735689600 "s" (JObj []) 11 11]
                   (mkStats 0 1 1)))) <= 1)%nat /\
  unique_processed
    (stats (mkDB [mkRow "e1" "t" 1735689600 "s" (JObj []) 11 11]
              (mkStats 0 1 1))) =
  Z.of_nat (length (processed_events
                      (mkDB [mkRow "e1" "t" 1735689600 "s" (JObj []) 11 11]
                         (mkStats 0 1 1)))).
Proof.
  apply (stored_records_are_unique
           [Append (sample_event "e1"); Append (sample_event "e1");
            Claim 0; Claim 1; Persist 1 11 []; Persist 0 12 []]
           (mkSys [] (mkDB [mkRow "e1" "t" 1735689600 "s" (JObj []) 11 11]
                        (mkStats 0 1 1))
              ∅ ∅ 2 [(0%nat, sample_event "e1"); (1%nat, sample_event "e1")])).
  vm_compute. reflexivity.
Defined.

Lemma db_extends_refl d : db_extends d d.
Proof. unfold db_extends. split; [done|lia]. Qed.

Lemma db_extends_trans d1 d2 d3 :
  db_extends d1 d2 -> db_extends d2 d3 -> db_extends d1 d3.
Proof.
  unfold db_extends. intros (Hp1 & ? & ? & ?) (Hp2 & ? & ? & ?).
  split; [by etrans|lia].
Qed.

Lemma persisted_extends now ev d r d' : persisted now ev d r d' -> db_extends d d'.
Proof.
  intros [st d1 d2 Hst Hrun Hincr|st d1 Hst Hrun Hincr| |];
    try apply db_extends_refl.
  - destruct (run_insert_ok _ _ _ _ _ Hst Hrun) as [Hstats [row [Hrows _]]].
    cbn in Hincr. injection Hincr as <-. unfold db_extends; cbn.
    rewrite Hstats, Hrows. split; [by apply prefix_app_r|lia].
  - cbn in Hincr. injection Hincr as <-. unfold db_extends; cbn.
    split; [done|lia].
Qed.

Lemma counted_extends d r d' : counted d r d' -> db_extends d d'.
Proof.
  intros [d1 Hrun|e]; [|apply db_extends_refl].
  cbn in Hrun. injection Hrun as <-. unfold db_extends; cbn.
  split; [done|lia].
Qed.

Lemma step_extends s a s' :
  step s a = Some s' -> db_extends (sys_db s) (sys_db s').
Proof.
  destruct a as [ev|faults|k|k now faults]; unfold step, dequeue; cbn.
  - intros [= <-]. apply db_extends_refl.
  - destruct (pending s); [done|]. intros [= <-]; cbn.
    apply (counted_extends _ _ _ (increment_receivedP (world_of s faults))).
  - case_decide; [|done].
    destruct (sys_queue s); intros [= <-]; apply db_extends_refl.
  - destruct (in_flight s !! k) as [ev|]; [|done]. intros [= <-]; cbn.
    apply (persisted_extends _ _ _ _ _
             (insert_eventP now ev (world_of s faults))).
Qed.

(** X9. The store only grows, under every interleaving and every failure:
    a stored record is never changed or removed by what happens later (a
    later event of the same event_id leaves the first record as it is), and
    no counter ever goes down. *)
Theorem store_only_grows trace s s' :
  exec s trace = Some s' -> db_extends (sys_db s) (sys_db s').
Proof.
  revert s. induction trace as [|a rest IH]; intros s; cbn [exec].
  - intros [= <-]. apply db_extends_refl.
  - destruct (step s a) as [s1|] eqn:Hstep; [|done]. intros Hrest.
    eapply db_extends_trans; [by apply (step_extends _ _ _ Hstep)|by apply IH].
Qed.

Lemma store_only_grows_witness :
  db_extends (mkDB [mkRow "e1" "t" 1735689600 "s" (JObj []) 11 11]
                (mkStats 0 1 0))
    (mkDB [mkRow "e1" "t" 1735689600 "s" (JObj []) 11 11] (mkStats 0 1 1)).
Proof.
  apply (store_only_grows
           [Append (mkEvent (JStr "other") (JStr "e1") (JStr "s") 7 JNull);
            Claim 0; Persist 0 12 []]
           (mkSys [] (mkDB [mkRow "e1" "t" 1735689600 "s" (JObj []) 11 11]
                        (mkStats 0 1 0)) ∅ ∅ 0 [])
           (mkSys [] (mkDB [mkRow "e1" "t" 1735689600 "s" (JObj []) 11 11]
                        (mkStats 0 1 1)) ∅ ∅ 1
              [(0%nat, mkEvent (JStr "other") (JStr "e1") (JStr "s") 7 JNull)])).
  vm_compute. reflexivity.
Defined.

Lemma counted_received d r d' :
  counted d r d' ->
  (received (stats d) <= received (stats d') <= received (stats d) + 1)%Z.
Proof.
  intros [d1 Hrun|e]; [|lia]. cbn in Hrun. injection Hrun as <-. cbn. lia.
Qed.

Lemma step_received s a s' :
  step s a = Some s' ->
  (received (stats (sys_db s')) + Z.of_nat (pending s') <=
   received (stats (sys_db s)) + Z.of_nat (pending s) +
   Z.of_nat (length (enqueued [a])))%Z /\
  (counts_succeed [a] ->
   received (stats (sys_db s')) + Z.of_nat (pending s') =
   received (stats (sys_db s)) + Z.of_nat (pending s) +
   Z.of_nat (length (enqueued [a])))%Z.
Proof.
  destruct a as [ev|faults|k|k now faults]; unfold step, dequeue; cbn.
  - intros [= <-]; cbn. lia.
  - destruct (pending s) as [|n]; [done|]. intros [= <-]; cbn.
    pose proof (counted_received _ _ _
                  (increment_receivedP (world_of s faults))) as Hr.
    cbn in Hr. split; [lia|]. intros [-> _].
    unfold world_of. rewrite increment_received_ok; cbn. lia.
  - case_decide; [|done]. destruct (sys_queue s); intros [= <-]; cbn; lia.
  - destruct (in_flight s !! k) as [ev|]; [|done]. intros [= <-]; cbn.
    destruct (persisted_counters _ _ _ _ _
                (insert_eventP now ev (world_of s faults))) as [Hr _].
    cbn in Hr. lia.
Qed.

Lemma exec_received trace s s' :
  exec s trace = Some s' ->
  (received (stats (sys_db s')) + Z.of_nat (pending s') <=
   received (stats (sys_db s)) + Z.of_nat (pending s) +
   Z.of_nat (length (enqueued trace)))%Z /\
  (counts_succeed trace ->
   received (stats (sys_db s')) + Z.of_nat (pending s') =
   received (stats (sys_db s)) + Z.of_nat (pending s) +
   Z.of_nat (length (enqueued trace)))%Z.
Proof.
  revert s. induction trace as [|a rest IH]; intros s; cbn [exec].
  - intros [= <-]. cbn. lia.
  - destruct (step s a) as [s1|] eqn:Hstep; [|done]. intros Hrest.
    destruct (step_received _ _ _ Hstep) as [Hle Heq].
    destruct (IH _ Hrest) as [Hle' Heq'].
    assert (length (enqueued (a :: rest)) =
            length (enqueued [a]) + length (enqueued rest))%nat as ->
      by (by destruct a).
    split; [lia|]. intros Hok.
    rewrite Heq', Heq; [lia| |]; by destruct a; cbn in Hok; try destruct Hok.
Qed.

(** X10. [received] never counts more than was accepted: in every
    reachable state [received], together with the submits that have
    appended and not yet counted, is at most the number of events appended;
    when every [increment_received] went through it is exactly that
    number, and what the workers have counted, hold or have still to pop
    is covered by it. *)
Theorem received_counts_accepted trace s :
  exec init_sys trace = Some s ->
  (received (stats (sys_db s)) + Z.of_nat (pending s) <=
   Z.of_nat (length (enqueued trace)))%Z /\
  (counts_succeed trace ->
   (received (stats (sys_db s)) + Z.of_nat (pending s) =
    Z.of_nat (length (enqueued trace)))%Z /\
   accounted s).
Proof.
  intros Hexec. destruct (exec_received _ _ _ Hexec) as [Hle Heq].
  cbn in Hle, Heq. split; [lia|]. intros Hok. split; [rewrite Heq by done; lia|].
  apply (exec_accounted _ _ _ Hexec Hok). unfold accounted; cbn.
  rewrite map_size_empty. lia.
Qed.

Lemma received_counts_accepted_witness :
  (1 + Z.of_nat 0 <= Z.of_nat 1)%Z /\
  (counts_succeed [Append (sample_event "e1"); CountReceived []] ->
   (1 + Z.of_nat 0 = Z.of_nat 1)%Z /\
   accounted (mkSys [sample_event "e1"] (mkDB [] (mkStats 1 0 0)) ∅ ∅ 0 [])).
Proof.
  apply (received_counts_accepted
           [Append (sample_event "e1"); CountReceived []]
           (mkSys [sample_event "e1"] (mkDB [] (mkStats 1 0 0)) ∅ ∅ 0 [])).
  vm_compute. reflexivity.
Defined.

(** ** [queue_status] *)

(** X11. In every reachable state [queue_status] reports the number of
    events appended so far less the number popped so far, with four
    workers, and changes nothing. *)
Theorem queue_status_is_backlog trace s faults :
  exec init_sys trace = Some s ->
  queue_status (world_of s faults) =
  (Ok ((length (enqueued trace) - length (claims s))%nat, num_workers),
   world_of s faults).
Proof.
  intros Hexec. unfold queue_status. cbn.
  pose proof (exec_queue_claims _ _ _ Hexec) as Hq. cbn in Hq.
  apply (f_equal length) in Hq. rewrite length_app, length_fmap in Hq.
  do 3 f_equal. lia.
Qed.

Lemma queue_status_is_backlog_witness :
  queue_status
    (world_of (mkSys [sample_event "e2"] init_db {[0%nat := sample_event "e1"]}
                 ∅ 2 [(0%nat, sample_event "e1")]) []) =
  (Ok ((2 - 1)%nat, num_workers),
   world_of (mkSys [sample_event "e2"] init_db {[0%nat := sample_event "e1"]}
               ∅ 2 [(0%nat, sample_event "e1")]) []).
Proof.
  apply (queue_status_is_backlog
           [Append (sample_event "e1"); Append (sample_event "e2"); Claim 0]
           (mkSys [sample_event "e2"] init_db {[0%nat := sample_event "e1"]}
              ∅ 2 [(0%nat, sample_event "e1")]) []).
  reflexivity.
Defined.

(** ** The gateway *)

Section GatewayMore.

Variable fromisoformat : string -> option datetime.

Lemma publish_valid_run data ts w :
  validate fromisoformat data = inr ts ->
  publish fromisoformat data w =
  match increment_received
          (set_queue (event_queue w ++ [event_of data ts]) w) with
  | (Ok _, w') => (Ok (Accepted (data !!! "event_id"%string)), w')
  | (Raise e, w') => (Raise e, w')
  end.
Proof. intros Hv. unfold publish. by rewrite Hv. Qed.

(** X12. A body that validates is appended to the queue whatever the store
    does afterwards: either [increment_received] goes through, [received]
    is one higher and the answer is 202, or the request ends with the
    exception of the store, the committed data as before and the event in
    the queue all the same. *)
Theorem publish_always_enqueues data ts w :
  validate fromisoformat data = inr ts ->
  event_queue (publish fromisoformat data w).2 =
    event_queue w ++ [event_of data ts] /\
  (((publish fromisoformat data w).1 =
      Ok (Accepted (data !!! "event_id"%string)) /\
    committed (publish fromisoformat data w).2 = counted_in 1 (committed w)) \/
   (exists e, (publish fromisoformat data w).1 = Raise e /\
      committed (publish fromisoformat data w).2 = committed w)).
Proof.
  intros Hv. rewrite (publish_valid_run _ ts) by done.
  set (w1 := set_queue (event_queue w ++ [event_of data ts]) w).
  pose proof (increment_received_queue w1) as Hq.
  pose proof (increment_receivedP w1) as Hp.
  destruct (increment_received w1) as [[[]|e] w2]; subst w1; py_proj.
  - split; [done|]. left. split; [done|].
    inversion Hp as [d1 Hrun|]; subst. cbn in Hrun. by injection Hrun as <-.
  - split; [done|]. right. exists e. split; [done|]. by inversion Hp.
Qed.

Lemma increment_received_counts w :
  (length (event_queue (increment_received w).2) = length (event_queue w)) /\
  received (stats (committed (increment_received w).2)) =
    (received (stats (committed w)) +
     (if is_raise (increment_received w).1 then 0 else 1))%Z.
Proof.
  rewrite increment_received_queue. split; [done|].
  destruct (increment_receivedP w) as [d1 Hrun|e]; cbn; [|lia].
  cbn in Hrun. by injection Hrun as <-.
Qed.

Lemma publish_batch_loop_valid_run event rest count ts w :
  validate fromisoformat event = inr ts ->
  publish_batch_loop fromisoformat (event :: rest) count w =
  match increment_received
          (set_queue (event_queue w ++ [event_of event ts]) w) with
  | (Ok _, w') => publish_batch_loop fromisoformat rest (count + 1) w'
  | (Raise e, w') => (Raise e, w')
  end.
Proof. intros Hv. cbn [publish_batch_loop]. by rewrite Hv. Qed.

Lemma publish_batch_loop_accounting events count w :
  (Z.of_nat (length (event_queue
                       (publish_batch_loop fromisoformat events count w).2)) -
   Z.of_nat (length (event_queue w)) =
   received (stats (committed
                      (publish_batch_loop fromisoformat events count w).2)) -
   received (stats (committed w)) +
   (if is_raise (publish_batch_loop fromisoformat events count w).1
    then 1 else 0))%Z.
Proof.
  revert count w. induction events as [|event rest IH]; intros count w.
  - cbn. lia.
  - destruct (validate fromisoformat event) as [e|ts] eqn:Hv.
    + cbn [publish_batch_loop]. rewrite Hv. destruct e; cbn; lia.
    + rewrite (publish_batch_loop_valid_run _ _ _ ts) by done.
      set (w1 := set_queue (event_queue w ++ [event_of event ts]) w).
      destruct (increment_received_counts w1) as [Hq Hr].
      assert (length (event_queue w1) = S (length (event_queue w))) as Hw1
        by (subst w1; py_proj; rewrite length_app; cbn; lia).
      assert (committed w1 = committed w) as Hc1 by done.
      destruct (increment_received w1) as [[[]|e] w2];
        cbn [fst snd is_raise] in *.
      * specialize (IH (count + 1)%nat w2). rewrite Hc1 in Hr. lia.
      * rewrite Hc1 in Hr. lia.
Qed.

(** X13. Under any failures of the store a batch request leaves the queue
    and [received] in step, up to one event: when the request is answered
    (202 or 400) every event it appended was counted, and when it ends with
    an exception of the store exactly one appended event is not counted. *)
Theorem publish_batch_accounting events w :
  (Z.of_nat (length (event_queue
                       (publish_batch fromisoformat (Some events) w).2)) -
   Z.of_nat (length (event_queue w)) =
   received (stats (committed
                      (publish_batch fromisoformat (Some events) w).2)) -
   received (stats (committed w)) +
   (if is_raise (publish_batch fromisoformat (Some events) w).1
    then 1 else 0))%Z.
Proof. apply publish_batch_loop_accounting. Qed.

End GatewayMore.

Lemma publish_always_enqueues_witness :
  event_queue
    (publish fromisoformat_sample (sample_body "e1")
       (mkWorld [] init_db init_db [Some StoreFailure])).2 =
    event_queue (mkWorld [] init_db init_db [Some StoreFailure]) ++
    [event_of (sample_body "e1") 1735689600] /\
  (((publish fromisoformat_sample (sample_body "e1")
       (mkWorld [] init_db init_db [Some StoreFailure])).1 =
      Ok (Accepted (sample_body "e1" !!! "event_id"%string)) /\
    committed
      (publish fromisoformat_sample (sample_body "e1")
         (mkWorld [] init_db init_db [Some StoreFailure])).2 =
    counted_in 1 (committed (mkWorld [] init_db init_db [Some StoreFailure]))) \/
   (exists e,
      (publish fromisoformat_sample (sample_body "e1")
         (mkWorld [] init_db init_db [Some StoreFailure])).1 = Raise e /\
      committed
        (publish fromisoformat_sample (sample_body "e1")
           (mkWorld [] init_db init_db [Some StoreFailure])).2 =
      committed (mkWorld [] init_db init_db [Some StoreFailure]))).
Proof.
  apply (publish_always_enqueues fromisoformat_sample (sample_body "e1")
           1735689600 (mkWorld [] init_db init_db [Some StoreFailure])).
  reflexivity.
Defined.

(** ** Validation *)

Lemma first_missing_app before rest data :
  (forall g, g ∈ before -> is_Some (data !! g)) ->
  first_missing (before ++ rest) data = first_missing rest data.
Proof.
  induction before as [|g before IH]; intros Hall; [done|]. cbn.
  destruct (Hall g) as [v ->]; [by left|]. apply IH.
  intros g' Hin. apply Hall. by right.
Qed.

Lemma first_missing_split fields data field :
  first_missing fields data = Some field ->
  exists before after,
    fields = before ++ field :: after /\
    (forall g, g ∈ before -> is_Some (data !! g)) /\
    data !! field = None.
Proof.
  induction fields as [|f rest IH]; cbn; [done|].
  destruct (data !! f) as [v|] eqn:Hf.
  - intros H. destruct (IH H) as (before & after & -> & Hall & Hnone).
    exists (f :: before), after. split; [done|]. split; [|done].
    intros g [->|Hin]%elem_of_cons; [by rewrite Hf|by apply Hall].
  - intros [= <-]. exists [], rest. split; [done|]. split; [|done].
    intros g Hin. by apply elem_of_nil in Hin.
Qed.

(** X14. The 400 answer for a missing key names the first key, in the
    order topic, event_id, timestamp, source, payload, that the body does
    not have: the keys before it are all there. *)
Theorem validate_names_first_missing fromisoformat data field :
  validate fromisoformat data = inl (MissingField field) <->
  exists before after,
    required = before ++ field :: after /\
    (forall g, g ∈ before -> is_Some (data !! g)) /\
    data !! field = None.
Proof.
  unfold validate. split.
  - destruct (first_missing required data) as [f|] eqn:Hmiss.
    + intros [= <-]. by apply first_missing_split.
    + by destruct (parse_timestamp _ _).
  - intros (before & after & Hreq & Hall & Hnone).
    rewrite Hreq, first_missing_app by done. cbn. by rewrite Hnone.
Qed.

(** ** Timestamps *)

Lemma replace_Z_app s1 s2 :
  replace_Z (s1 +:+ s2) = (replace_Z s1 +:+ replace_Z s2)%string.
Proof.
  induction s1 as [|a s1 IH]; [done|].
  change (String a s1 +:+ s2) with (String a (s1 +:+ s2)).
  cbn [replace_Z]. rewrite IH.
  destruct (Ascii.eqb a "Z"); [|done].
  reflexivity.
Qed.

Lemma replace_Z_id s : "Z"%char ∉ chars s -> replace_Z s = s.
Proof.
  induction s as [|a s IH]; [done|]. cbn.
  rewrite not_elem_of_cons. intros [Hne Hrest].
  destruct (Ascii.eqb_spec a "Z"); [done|]. by rewrite IH.
Qed.

Lemma chars_app s1 s2 : chars (s1 +:+ s2) = chars s1 ++ chars s2.
Proof.
  induction s1 as [|a s1 IH]; [done|].
  change (String a s1 +:+ s2) with (String a (s1 +:+ s2)).
  cbn [chars]. by rewrite IH.
Qed.

Lemma replace_Z_no_Z s : "Z"%char ∉ chars (replace_Z s).
Proof.
  induction s as [|a s IH]; cbn; [apply not_elem_of_nil|].
  destruct (Ascii.eqb_spec a "Z") as [->|Hne].
  - rewrite chars_app, not_elem_of_app. split; [|done].
    cbn. rewrite !not_elem_of_cons. repeat split; try discriminate.
    apply not_elem_of_nil.
  - cbn. rewrite not_elem_of_cons. by split.
Qed.

(** X15. A timestamp written with a final Z is read as the same timestamp
    with the offset +00:00; and whatever the string, the text handed to
    [fromisoformat] has no Z left in it. *)
Theorem parse_timestamp_reads_Z_as_utc fromisoformat s :
  "Z"%char ∉ chars s ->
  parse_timestamp fromisoformat (JStr (s +:+ "Z")) =
    fromisoformat (s +:+ "+00:00")%string /\
  forall s', "Z"%char ∉ chars (replace_Z s').
Proof.
  intros Hs. split; [|apply replace_Z_no_Z].
  cbn [parse_timestamp]. by rewrite replace_Z_app, replace_Z_id.
Qed.

Lemma parse_timestamp_reads_Z_as_utc_witness :
  parse_timestamp fromisoformat_sample (JStr ("2025-01-01T00:00:00" +:+ "Z")) =
    fromisoformat_sample ("2025-01-01T00:00:00" +:+ "+00:00")%string /\
  forall s', "Z"%char ∉ chars (replace_Z s').
Proof.
  apply (parse_timestamp_reads_Z_as_utc fromisoformat_sample
           "2025-01-01T00:00:00").
  cbn. rewrite !not_elem_of_cons. repeat split; try discriminate.
  apply not_elem_of_nil.
Defined.

(** ** The listing and the statistics *)


#[global] Instance arrived_no_earlier_trans : Transitive arrived_no_earlier.
Proof. intros r1 r2 r3. unfold arrived_no_earlier. lia. Qed.





(** With two records that arrived at the same time the order of a listing
    is open: both orders are sorted, so a second query may list first the
    record that the first query listed second. *)
Lemma listing_order_open_on_ties :
  Sorted arrived_no_earlier
    [mkRow "e1" "a" 5 "s" JNull 10 10; mkRow "e2" "a" 5 "s" JNull 10 10] /\
  Sorted arrived_no_earlier
    [mkRow "e2" "a" 5 "s" JNull 10 10; mkRow "e1" "a" 5 "s" JNull 10 10].
Proof.
  split; repeat constructor; unfold arrived_no_earlier; cbn; lia.
Qed.



Lemma count_by_topic_lookup rows tp :
  count_by_topic rows !! tp =
  match length (filter (fun r => r_topic r = tp) rows) with
  | O => None
  | S n => Some (S n)
  end.
Proof.
  induction rows as [|r rows IH]; [done|].
  cbn [count_by_topic foldr]. fold (count_by_topic rows).
  destruct (decide (r_topic r = tp)) as [<-|Hne].
  - rewrite lookup_insert_eq, filter_cons_True by done. cbn [length].
    rewrite IH. by destruct (length _).
  - by rewrite lookup_insert_ne, filter_cons_False.
Qed.

Lemma total_count_insert tp n (groups : gmap string nat) :
  groups !! tp = None ->
  total_count (<[tp:=n]> groups) = (n + total_count groups)%nat.
Proof.
  intros Hnone. unfold total_count.
  rewrite map_fold_insert_L; [done| |done].
  intros j1 j2 z1 z2 y _ _ _. apply Nat.add_shuffle3.
Qed.

Lemma total_count_by_topic rows : total_count (count_by_topic rows) = length rows.
Proof.
  induction rows as [|r rows IH]; [done|].
  cbn [count_by_topic foldr length]. fold (count_by_topic rows).
  destruct (count_by_topic rows !! r_topic r) as [n|] eqn:Hn; cbn [default].
  - assert (total_count (count_by_topic rows) =
            (n + total_count (delete (r_topic r) (count_by_topic rows)))%nat)
      as Htotal.
    { rewrite <- (insert_delete_id (count_by_topic rows) _ _ Hn) at 1.
      apply total_count_insert, lookup_delete_eq. }
    rewrite <- insert_delete_eq, total_count_insert by apply lookup_delete_eq.
    unfold id. lia.
  - rewrite total_count_insert by done. lia.
Qed.

Lemma topics_dict_foldr (l : list (string * nat)) (m0 : gmap string nat) :
  foldl (fun topics row => <[row.1 := row.2]> topics) m0 l =
  foldr (fun row topics => <[row.1 := row.2]> topics) m0 (reverse l).
Proof.
  revert m0. induction l as [|x l IH]; intros m0; [done|].
  cbn [foldl]. by rewrite IH, reverse_cons, foldr_app.
Qed.

(** The dict built by the loop holds the groups of the SELECT. *)
Lemma topics_dict_select d :
  topics_dict (select_topic_counts d) = count_by_topic (processed_events d).
Proof.
  unfold topics_dict. rewrite topics_dict_foldr.
  transitivity (list_to_map (reverse (select_topic_counts d)) : gmap string nat);
    [done|].
  etrans; [|apply list_to_map_to_list].
  symmetry. apply list_to_map_proper; [apply NoDup_fst_map_to_list|].
  unfold select_topic_counts. by rewrite reverse_Permutation, merge_sort_Permutation.
Qed.

Lemma get_stats_from_db_run q c t :
  get_stats_from_db (mkWorld q c t []) =
  (Ok (mkStatsView (received (stats c)) (unique_processed (stats c))
         (duplicate_dropped (stats c)) (count_by_topic (processed_events c))),
   mkWorld q c c []).
Proof.
  unfold get_stats_from_db, get_db_connection, connect, driver_call,
    try_except, bind, ret; cbn.
  by rewrite topics_dict_select.
Qed.

(** X18. With a store that answers, [/stats] gives the three counters of
    the stats row, and its [topics] has a topic exactly when a stored
    record has it, with the number of such records as its count; no topic
    is listed with a count of 0. *)
Theorem stats_topics_count_records q c t tp n :
  exists view,
    (get_stats_from_db (mkWorld q c t [])).1 = Ok view /\
    (s_received view, s_unique_processed view, s_duplicate_dropped view) =
      (received (stats c), unique_processed (stats c),
       duplicate_dropped (stats c)) /\
    (s_topics view !! tp = Some n <->
     (0 < n)%nat /\
     n = length (filter (fun r => r_topic r = tp) (processed_events c))).
Proof.
  eexists. rewrite get_stats_from_db_run. cbn [fst].
  split; [done|]. split; [done|]. cbn [s_topics].
  rewrite count_by_topic_lookup.
  destruct (length _) as [|k]; split.
  - done.
  - intros [? ->]. lia.
  - intros [= <-]. split; [lia|done].
  - by intros [_ ->].
Qed.

Lemma get_stats_from_db_unchanged q c t :
  get_stats_from_db (mkWorld q c t []) = (Ok (stats_answer c c), mkWorld q c c []).
Proof.
  unfold get_stats_from_db, get_db_connection, connect, driver_call,
    try_except, bind, ret; cbn. done.
Qed.

Lemma exec_records_grow trace s s' :
  exec s trace = Some s' ->
  (length (processed_events (sys_db s)) <=
   length (processed_events (sys_db s')))%nat.
Proof.
  revert s. induction trace as [|a rest IH]; intros s; cbn [exec].
  - by intros [= <-].
  - destruct (step s a) as [s1|] eqn:Hstep; [|done]. intros Hrest.
    destruct (step_extends _ _ _ Hstep) as [Hprefix _].
    apply prefix_length in Hprefix. specialize (IH _ Hrest). lia.
Qed.

Lemma exec_app trace1 trace2 s s1 s2 :
  exec s trace1 = Some s1 -> exec s1 trace2 = Some s2 ->
  exec s (trace1 ++ trace2) = Some s2.
Proof.
  revert s. induction trace1 as [|a rest IH]; intros s; cbn [exec app].
  - by intros [= ->].
  - destruct (step s a); [apply IH|done].
Qed.

(** X19. The stats row is read at one reachable state and the topics are
    counted at a state the threads reach from it, the same state or a later
    one.  The counts of [topics] in the answer add up to the
    [unique_processed] of the store at the second SELECT, which is never
    below the [unique_processed] the answer reports; when nothing is
    committed between the two SELECTs, as in a call of [get_stats_from_db]
    on a store that no worker touches meanwhile, the two are equal. *)
Theorem stats_topics_cover_unique_processed before between s1 s2 :
  exec init_sys before = Some s1 ->
  exec s1 between = Some s2 ->
  Z.of_nat (total_count (s_topics (stats_answer (sys_db s1) (sys_db s2)))) =
    unique_processed (stats (sys_db s2)) /\
  (s_unique_processed (stats_answer (sys_db s1) (sys_db s2)) <=
   Z.of_nat (total_count (s_topics (stats_answer (sys_db s1) (sys_db s2)))))%Z /\
  (get_stats_from_db (world_of s1 [])).1 =
    Ok (stats_answer (sys_db s1) (sys_db s1)) /\
  Z.of_nat (total_count (s_topics (stats_answer (sys_db s1) (sys_db s1)))) =
    s_unique_processed (stats_answer (sys_db s1) (sys_db s1)).
Proof.
  intros H1 H12.
  destruct (unique_processed_counts_records _ _ H1) as [Hcount1 _].
  destruct (unique_processed_counts_records _ _ (exec_app _ _ _ _ _ H1 H12))
    as [Hcount2 _].
  pose proof (exec_records_grow _ _ _ H12) as Hgrow.
  assert ((get_stats_from_db (world_of s1 [])).1 =
          Ok (stats_answer (sys_db s1) (sys_db s1))) as Hrun.
  { unfold world_of. by rewrite get_stats_from_db_unchanged. }
  revert Hrun. unfold stats_answer; cbn [s_topics s_unique_processed].
  rewrite !topics_dict_select, !total_count_by_topic. intros Hrun.
  split; [done|]. split; [lia|]. by split.
Qed.

Lemma stats_topics_cover_unique_processed_witness :
  Z.of_nat (total_count
              (s_topics
                 (stats_answer init_db
                    (mkDB [mkRow "e1" "t" 1735689600 "s" (JObj []) 11 11]
                       (mkStats 0 1 0))))) = 1%Z /\
  (s_unique_processed
     (stats_answer init_db
        (mkDB [mkRow "e1" "t" 1735689600 "s" (JObj []) 11 11]
           (mkStats 0 1 0))) <=
   Z.of_nat (total_count
               (s_topics
                  (stats_answer init_db
                     (mkDB [mkRow "e1" "t" 1735689600 "s" (JObj []) 11 11]
                        (mkStats 0 1 0))))))%Z /\
  (get_stats_from_db (mkWorld [] init_db init_db [])).1 =
    Ok (stats_answer init_db init_db) /\
  Z.of_nat (total_count (s_topics (stats_answer init_db init_db))) =
    s_unique_processed (stats_answer init_db init_db).
Proof.
  apply (stats_topics_cover_unique_processed
           [Append (sample_event "e1"); Claim 0] [Persist 0 11 []]
           (mkSys [] init_db {[0%nat := sample_event "e1"]} ∅ 1
              [(0%nat, sample_event "e1")])
           (mkSys [] (mkDB [mkRow "e1" "t" 1735689600 "s" (JObj []) 11 11]
                        (mkStats 0 1 0))
              ∅ ∅ 1 [(0%nat, sample_event "e1")]));
    vm_compute; reflexivity.
Defined.

(** A worker commits its record between the two SELECTs: the answer
    reports a [unique_processed] of 0 and one record under its topic. *)
Lemma stats_topics_exceed_when_committed_between :
  exists s1 s2,
    exec init_sys [Append (sample_event "e1"); Claim 0] = Some s1 /\
    exec s1 [Persist 0 11 []] = Some s2 /\
    s_unique_processed (stats_answer (sys_db s1) (sys_db s2)) = 0%Z /\
    s_topics (stats_answer (sys_db s1) (sys_db s2)) !! "t"%string = Some 1%nat /\
    total_count (s_topics (stats_answer (sys_db s1) (sys_db s2))) = 1%nat.
Proof.
  do 2 eexists. split; [vm_compute; reflexivity|].
  split; [vm_compute; reflexivity|]. by vm_compute.
Qed.

(** X20. The two read requests change nothing, whatever the store does:
    after [get_events_from_db] and after [get_stats_from_db] the queue and
    the committed data are what they were. *)
Theorem queries_are_read_only topic limit offset w :
  event_queue (get_events_from_db topic limit offset w).2 = event_queue w /\
  committed (get_events_from_db topic limit offset w).2 = committed w /\
  event_queue (get_stats_from_db w).2 = event_queue w /\
  committed (get_stats_from_db w).2 = committed w.
Proof.
  unfold get_events_from_db, get_stats_from_db, bind, ret.
  destruct (get_db_connectionP w) as [s0|e s0 He]; [|done].
  set (w1 := set_script s0 (set_tx (committed w) w)).
  destruct (driver_callP w1) as [s1|f s1]; [|done].
  split; [|split].
  - by destruct (select_events _ _ _ _).
  - by destruct (select_events _ _ _ _).
  - by destruct (driver_callP (set_script s1 w1)) as [s2|f s2].
Qed.

(** ** [init_database] *)

Lemma boot_connectP b :
  (exists s', boot_connect b = (Ok tt, mkBoot (b_committed b) (b_committed b) s'))
  \/ (exists e s', boot_connect b = (Raise e, mkBoot (b_committed b) (b_tx b) s')).
Proof.
  unfold boot_connect.
  destruct (get_db_connectionP (mkWorld [] init_db init_db (b_script b)))
    as [s'|e s' He]; cbn; by eauto.
Qed.

Lemma init_database_after_connect c s :
  (exists s',
     boot_sequence
       [boot_execute CreateProcessedEvents;
        boot_execute (CreateIndex "idx_topic");
        boot_execute (CreateIndex "idx_timestamp");
        boot_execute (CreateIndex "idx_received_at");
        boot_execute CreateStats;
        boot_execute InsertStatsRow;
        boot_commit] (mkBoot c c s) =
     (Ok tt, mkBoot (with_schema c) (with_schema c) s')) \/
  (exists e t' s',
     boot_sequence
       [boot_execute CreateProcessedEvents;
        boot_execute (CreateIndex "idx_topic");
        boot_execute (CreateIndex "idx_timestamp");
        boot_execute (CreateIndex "idx_received_at");
        boot_execute CreateStats;
        boot_execute InsertStatsRow;
        boot_commit] (mkBoot c c s) =
     (Raise e, mkBoot c t' s')).
Proof.
  destruct c as [pe ix st]. unfold with_schema; cbn [boot_sequence].
  do 7 (destruct s as [|[f|] s];
        [cbn; by eauto|cbn; by eauto 10|];
        cbn -[union]).
  by eauto.
Qed.

Lemma init_database_unfold b :
  init_database b =
  match boot_connect b with
  | (Ok _, b') =>
      boot_sequence
        [boot_execute CreateProcessedEvents;
         boot_execute (CreateIndex "idx_topic");
         boot_execute (CreateIndex "idx_timestamp");
         boot_execute (CreateIndex "idx_received_at");
         boot_execute CreateStats;
         boot_execute InsertStatsRow;
         boot_commit] b'
  | (Raise e, b') => (Raise e, b')
  end.
Proof. reflexivity. Qed.

(** X21. Whatever the store does, [init_database] either goes through,
    and the committed store then has both tables, the three indexes and
    the stats row, with every record and every counter that was already
    there kept as it was, or it ends with an exception and the committed
    store is exactly what it was: nothing of the schema is left half
    made. *)
Theorem init_database_all_or_nothing b :
  ((init_database b).1 = Ok tt /\
   b_committed (init_database b).2 = with_schema (b_committed b)) \/
  (exists e, (init_database b).1 = Raise e /\
     b_committed (init_database b).2 = b_committed b).
Proof.
  rewrite init_database_unfold.
  destruct (boot_connectP b) as [[s' ->]|(e & s' & ->)]; [|by eauto].
  destruct (init_database_after_connect (b_committed b) s')
    as [[s'' ->]|(e & t' & s'' & ->)]; by eauto.
Qed.

Lemma index_set_of_schema :
  ({["idx_received_at"%string]} ∪
     ({["idx_timestamp"%string]} ∪
        ({["idx_topic"%string]} ∪
           {["idx_topic"; "idx_timestamp"; "idx_received_at"]}%string)) : gset string) =
    {["idx_topic"; "idx_timestamp"; "idx_received_at"]}%string /\
  ({["idx_received_at"%string]} ∪
     ({["idx_timestamp"%string]} ∪ ({["idx_topic"%string]} ∪ ∅)) : gset string) =
    {["idx_topic"; "idx_timestamp"; "idx_received_at"]}%string.
Proof.
  split; apply set_eq; intros x;
    rewrite ?elem_of_union, ?elem_of_singleton, ?elem_of_empty; tauto.
Qed.

(** X22. On a database that was never initialised [init_database] leaves
    the empty tables and a stats row of zeros; on one that is initialised
    it changes nothing: records and counters survive a restart. *)
Theorem init_database_idempotent d t :
  init_database (mkBoot empty_catalog t []) =
    (Ok tt, mkBoot (catalog_of init_db) (catalog_of init_db) []) /\
  init_database (mkBoot (catalog_of d) t []) =
    (Ok tt, mkBoot (catalog_of d) (catalog_of d) []).
Proof.
  assert (forall c, init_database (mkBoot c t []) =
                    (Ok tt, mkBoot (with_schema c) (with_schema c) [])) as Hrun.
  { by intros [pe ix st]. }
  rewrite !Hrun. unfold with_schema, catalog_of, empty_catalog, init_db.
  cbn [tbl_processed_events tbl_indexes tbl_stats default processed_events stats].
  destruct index_set_of_schema as [-> ->]. done.
Qed.

(** The startup of the service refuses to go on when the store cannot be
    reached: the exception of [get_db_connection] leaves [init_database]. *)
Example init_database_without_connection c t :
  init_database (mkBoot c t (replicate max_retries (Some ConnectionLost))) =
  (Raise OtherException, mkBoot c t []).
Proof. reflexivity. Qed.

(** ** The publishing loop *)

Lemma publisher_turn_bookkeeping {E} (st : Publisher E) (d : Draw E) :
  (length (event_pool st) <= pool_limit)%nat ->
  exists again : bool,
    (event_pool st = [] -> again = false) /\
    duplicate_count (publisher_turn st d).2 =
      (duplicate_count st + (if again then 1 else 0))%nat /\
    length (event_pool (publisher_turn st d).2) =
      (pool_limit `min`
       (length (event_pool st) + (if again then 0 else 1)))%nat /\
    sent_count (publisher_turn st d).2 =
      (sent_count st + (if accepted d then 1 else 0))%nat /\
    failed_count (publisher_turn st d).2 =
      (failed_count st + (if accepted d then 0 else 1))%nat.
Proof.
  intros Hpool. unfold publisher_turn.
  destruct (event_pool st) as [|first pool] eqn:Hst.
  - exists false. rewrite bool_decide_eq_false_2 by (unfold pool_limit; cbn; lia).
    destruct (accepted d);
      cbn [event_pool snd duplicate_count sent_count failed_count app length];
      unfold pool_limit; repeat split; lia.
  - destruct (resend d).
    + exists true.
      destruct (accepted d);
        cbn [event_pool snd duplicate_count sent_count failed_count];
        repeat split; try done; lia.
    + exists false. cbn [app length] in *.
      rewrite length_app. cbn [length].
      case_bool_decide; destruct (accepted d);
        cbn [event_pool snd duplicate_count sent_count failed_count tail
               length];
        rewrite ?length_app; cbn [length]; repeat split; try done; lia.
Qed.

Lemma publisher_loop_bookkeeping {E} (draws : list (Draw E)) (st : Publisher E) :
  (length (event_pool st) <= pool_limit)%nat ->
  length (publisher_loop st draws).1 = length draws /\
  (sent_count (publisher_loop st draws).2 +
   failed_count (publisher_loop st draws).2 =
   sent_count st + failed_count st + length draws)%nat /\
  (sent_count (publisher_loop st draws).2 =
   sent_count st + length (filter (fun d => accepted d = true) draws))%nat /\
  (duplicate_count st <= duplicate_count (publisher_loop st draws).2
   <= duplicate_count st + length draws)%nat /\
  (event_pool st = [] -> draws <> [] ->
   duplicate_count (publisher_loop st draws).2
   < duplicate_count st + length draws)%nat /\
  length (event_pool (publisher_loop st draws).2) =
    (pool_limit `min`
     (length (event_pool st) + length draws -
      (duplicate_count (publisher_loop st draws).2 - duplicate_count st)))%nat.
Proof.
  revert st. induction draws as [|d rest IH]; intros st Hpool.
  - cbn [publisher_loop fst snd length filter].
    repeat split; try done; lia.
  - cbn [publisher_loop].
    destruct (publisher_turn_bookkeeping st d Hpool)
      as (again & Hfirst & Hdup & Hlen & Hsent & Hfailed).
    destruct (publisher_turn st d) as [event st1]. cbn [snd] in *.
    assert (length (event_pool st1) <= pool_limit)%nat as Hpool1 by lia.
    destruct (IH st1 Hpool1) as (Hn & Hsum & Hacc & Hd & _ & Hp).
    destruct (publisher_loop st1 rest) as [events st2]. cbn [fst snd] in *.
    rewrite filter_cons. cbn [length].
    split; [lia|]. split; [destruct (accepted d); lia|].
    split; [destruct (accepted d); [rewrite decide_True by done|
                                    rewrite decide_False by done]; cbn; lia|].
    split; [destruct again; lia|].
    split; [intros Hempty _; rewrite (Hfirst Hempty) in Hdup; lia|].
    destruct again; lia.
Qed.

(** X23. The bookkeeping of the load generator, whatever it draws and
    whatever the network answers: one event is sent per turn; every turn
    is counted once, as sent when the answer was 202 and as failed
    otherwise; the first turn is never a resend, so [duplicate_count] is
    below the number of turns; and the pool holds the events made up so
    far, up to [pool_limit] of them. *)
Theorem publisher_bookkeeping {E} (draws : list (Draw E)) :
  length (publisher_loop publisher_start draws).1 = length draws /\
  (sent_count (publisher_loop publisher_start draws).2 +
   failed_count (publisher_loop publisher_start draws).2 = length draws)%nat /\
  sent_count (publisher_loop publisher_start draws).2 =
    length (filter (fun d => accepted d = true) draws) /\
  (draws <> [] ->
   duplicate_count (publisher_loop publisher_start draws).2 < length draws)%nat /\
  length (event_pool (publisher_loop publisher_start draws).2) =
    (pool_limit `min`
     (length draws - duplicate_count (publisher_loop publisher_start draws).2))%nat.
Proof.
  destruct (publisher_loop_bookkeeping draws publisher_start)
    as (Hn & Hsum & Hacc & Hd & Hfirst & Hp).
  { unfold pool_limit. cbn. lia. }
  cbn [publisher_start event_pool sent_count failed_count duplicate_count
         length] in *.
  split; [done|]. split; [lia|]. split; [lia|]. split.
  - intros Hne. specialize (Hfirst eq_refl Hne). lia.
  - rewrite Hp. f_equal. lia.
Qed.

Lemma publisher_turn_event {E} (st : Publisher E) (d : Draw E) :
  ((publisher_turn st d).1 = fresh d \/
   (publisher_turn st d).1 ∈ event_pool st) /\
  forall e, e ∈ event_pool (publisher_turn st d).2 ->
            e ∈ event_pool st \/ e = (publisher_turn st d).1.
Proof.
  unfold publisher_turn.
  assert (forall e, e ∈ event_pool st ++ [fresh d] ->
                    e ∈ event_pool st \/ e = fresh d) as Happ.
  { intros e [Hin|Hin]%elem_of_app; [by left|].
    apply list_elem_of_singleton in Hin. by right. }
  assert (forall e, e ∈ tail (event_pool st ++ [fresh d]) ->
                    e ∈ event_pool st \/ e = fresh d) as Htail.
  { intros e Hin. apply Happ. destruct (event_pool st ++ [fresh d]); [done|].
    by right. }
  destruct (event_pool st) as [|first pool] eqn:Hst.
  - split; [by left|]. case_bool_decide; by destruct (accepted d).
  - destruct (resend d).
    + split.
      * cbn [fst]. destruct ((first :: pool) !! _) as [e|] eqn:He; [|by left].
        right. by apply list_elem_of_lookup_2 in He.
      * intros e. destruct (accepted d); cbn [snd event_pool]; by left.
    + split; [by left|]. case_bool_decide; by destruct (accepted d).
Qed.

Lemma publisher_loop_resends {E} (draws : list (Draw E)) (st : Publisher E)
    (before : list E) (i : nat) (e : E) :
  (forall e', e' ∈ event_pool st -> e' ∈ before) ->
  (publisher_loop st draws).1 !! i = Some e ->
  (exists d, draws !! i = Some d /\ e = fresh d) \/
  e ∈ before ++ take i (publisher_loop st draws).1.
Proof.
  revert st before i. induction draws as [|d rest IH]; intros st before i Hpool.
  - done.
  - cbn [publisher_loop].
    destruct (publisher_turn_event st d) as [Hevent Hpool1].
    destruct (publisher_turn st d) as [event st1]. cbn [fst snd] in *.
    specialize (IH st1 (before ++ [event])).
    destruct (publisher_loop st1 rest) as [events st2]. cbn [fst snd] in *.
    destruct i as [|i]; cbn.
    + intros [= <-]. destruct Hevent as [->|Hin]; [left; by eauto|].
      right. rewrite app_nil_r. by apply Hpool.
    + intros Hi. destruct (IH i) as [Hfresh|Hin]; [|done|by left|].
      * intros e' [Hin| ->]%Hpool1; rewrite elem_of_app, list_elem_of_singleton;
          [left; by apply Hpool|by right].
      * right. by rewrite <- app_assoc in Hin.
Qed.

(** X24. A resend of the load generator is a true duplicate: the event
    sent in a turn is the event made up for that turn, or an event that was
    already sent in an earlier turn of the run. *)
Theorem publisher_resends_earlier_events {E} (draws : list (Draw E)) i e :
  (publisher_loop publisher_start draws).1 !! i = Some e ->
  (exists d, draws !! i = Some d /\ e = fresh d) \/
  e ∈ take i (publisher_loop publisher_start draws).1.
Proof.
  intros Hi.
  destruct (publisher_loop_resends draws publisher_start [] i e) as [H|H];
    [by intros e' []%elem_of_nil|done|by left|by right].
Qed.

Lemma publisher_resends_earlier_events_witness :
  (exists d,
     [mkDraw false 0 "a"%string true; mkDraw true 5 "b"%string false] !! 1%nat =
       Some d /\ "a"%string = fresh d) \/
  "a"%string ∈
    take 1 (publisher_loop publisher_start
              [mkDraw false 0 "a"%string true;
               mkDraw true 5 "b"%string false]).1.
Proof.
  apply (publisher_resends_earlier_events
           [mkDraw false 0 "a"%string true; mkDraw true 5 "b"%string false]
           1 "a"%string).
  reflexivity.
Defined.

(** The second turn of the run above resends the event of the first. *)
Example publisher_example :
  publisher_loop publisher_start
    [mkDraw false 0 "a"%string true; mkDraw true 5 "b"%string false] =
  (["a"; "a"]%string, mkPublisher ["a"%string] 1 1 1).
Proof. reflexivity. Qed.
